(** * verdi_llm.cli.generate_verdi_cli_json: help-text parser and tree walker

    A shallow embedding of [generate_verdi_cli_json.py].  Python [str] values
    are modelled as [string]; a character is a code point below 256.  List
    indexing that can raise [IndexError] is modelled with list lookup in the
    [option] monad ([None] stands for the raised exception).  The coroutine
    [process_command] is split into the part it runs between two suspension
    points ([process_help_text]) and a transition function ([step]) that a
    schedule of events drives. *)

From stdpp Require Import base option list strings.
From Stdlib Require Import Ascii String Lia.

Local Open Scope string_scope.
Local Open Scope list_scope.

(** ** Python string primitives used by the script *)

Module PyStr.

(** [str.isspace] on one character, restricted to code points below 256:
    TAB, LF, VT, FF, CR, the separators 0x1c-0x1f, SPACE, NEL and NBSP.
    The regular-expression class [\s] on [str] patterns is the same set. *)
Definition isspace (c : ascii) : bool :=
  let n := nat_of_ascii c in
  (((9 <=? n) && (n <=? 13)) || ((28 <=? n) && (n <=? 32))
   || (n =? 133) || (n =? 160))%nat.

(** Truth value of a string: [bool(s)]. *)
Definition nonempty (s : string) : bool :=
  match s with
  | EmptyString => false
  | String _ _ => true
  end.

Fixpoint lstrip (s : string) : string :=
  match s with
  | EmptyString => EmptyString
  | String c s' => if isspace c then lstrip s' else s
  end.

Fixpoint rstrip (s : string) : string :=
  match s with
  | EmptyString => EmptyString
  | String c s' =>
      match rstrip s' with
      | EmptyString => if isspace c then EmptyString else String c EmptyString
      | r => String c r
      end
  end.

(** [s.strip()] *)
Definition strip (s : string) : string := rstrip (lstrip s).

(** [s.startswith(pre)] *)
Fixpoint startswith (s pre : string) {struct pre} : bool :=
  match pre with
  | EmptyString => true
  | String a pre' =>
      match s with
      | EmptyString => false
      | String b s' => if Ascii.eqb a b then startswith s' pre' else false
      end
  end.

(** [s[n:]] *)
Fixpoint slice_from (n : nat) (s : string) : string :=
  match n, s with
  | S n', String _ s' => slice_from n' s'
  | _, _ => s
  end.

(** [s.split(sep)] for a one-character separator. *)
Fixpoint split (sep : ascii) (s : string) : list string :=
  match s with
  | EmptyString => [EmptyString]
  | String c s' =>
      if Ascii.eqb c sep then EmptyString :: split sep s'
      else match split sep s' with
           | piece :: pieces => String c piece :: pieces
           | [] => [String c EmptyString]
           end
  end.

(** [sep.join(pieces)] *)
Fixpoint join (sep : string) (pieces : list string) : string :=
  match pieces with
  | [] => EmptyString
  | [piece] => piece
  | piece :: pieces' => piece +:+ sep +:+ join sep pieces'
  end.

(** Does a match of [\s{2,}] begin at the head of [s]? *)
Definition ws_run_here (s : string) : bool :=
  match s with
  | String c (String c' _) => isspace c && isspace c'
  | _ => false
  end.

(** Leftmost match of [\s{2,}] in [s]: the text before the match and the
    text after it.  The quantifier is greedy, so the match takes the whole
    run of whitespace. *)
Fixpoint re_search_ws2 (s : string) : option (string * string) :=
  if ws_run_here s then Some (EmptyString, lstrip s)
  else match s with
       | EmptyString => None
       | String c s' =>
           match re_search_ws2 s' with
           | Some (before, after) => Some (String c before, after)
           | None => None
           end
       end.

(** [re.split(r"\s{2,}", s, 1)] *)
Definition re_split_ws2 (s : string) : list string :=
  match re_search_ws2 s with
  | Some (before, after) => [before; after]
  | None => [s]
  end.

End PyStr.

Import PyStr.

(** ** The help-text parser *)

Definition CONCURRENCY_LIMIT : nat := 10.

(** One element of the list [parse_options] returns: the dict with the keys
    ["flags"] and ["description"]. *)
Record cli_option := CliOption {
  o_flags : string;
  o_description : string
}.

(** One element of [entries]: the dict with the keys ["command"], ["usage"]
    and ["description"]. *)
Record entry := Entry {
  e_command : string;
  e_usage : string;
  e_description : string
}.

Fixpoint parse_usage (lines : list string) : string :=
  match lines with
  | [] => ""
  | line :: lines' =>
      if startswith line "Usage: "
      then strip (slice_from (String.length "Usage: ") line)
      else parse_usage lines'
  end.

(** The loop of [parse_description]; [description] is the list built so far. *)
Fixpoint parse_description_loop (lines : list string) (description : list string)
  : list string :=
  match lines with
  | [] => description
  | line :: lines' =>
      let stripped_line := strip line in
      if startswith stripped_line "Options:" || startswith stripped_line "Commands:"
      then description
      else if nonempty stripped_line && negb (startswith line "Usage: ")
      then parse_description_loop lines' (description ++ [stripped_line])
      else parse_description_loop lines' description
  end.

Definition parse_description (lines : list string) : string :=
  join " " (parse_description_loop lines []).

(** The test that ends the options section (the [break] of [parse_options]). *)
Definition options_break (line : string) : bool :=
  let stripped_line := strip line in
  startswith stripped_line "Commands:" || startswith stripped_line "Arguments:"
  || (nonempty stripped_line && negb (startswith line " ")).

(** [current_option["description"] += " " + stripped_line] *)
Definition extend_description (stripped_line : string) (o : cli_option) : cli_option :=
  {| o_flags := o_flags o;
     o_description := o_description o +:+ " " +:+ stripped_line |}.

(** The local variables of [parse_options] when its loop is left; [po_break]
    tells whether it was left through [break]. *)
Record po_locals := PoLocals {
  po_options : list cli_option;
  po_in_options : bool;
  po_current_option : option nat;
  po_break : bool
}.

(** The loop of [parse_options].  [current_option] is a reference to a dict
    that is also an element of [options]: it is modelled as the index of that
    element, and an update through it as an update of [options] in place.
    [None] as a result stands for an [IndexError] at [parts[0]]. *)
Fixpoint parse_options_loop (lines : list string) (options : list cli_option)
    (in_options : bool) (current_option : option nat)
  : option po_locals :=
  match lines with
  | [] => Some (PoLocals options in_options current_option false)
  | line :: lines' =>
      let stripped_line := strip line in
      if startswith stripped_line "Options:"
      then parse_options_loop lines' options true current_option
      else if in_options then
        if options_break line
        then Some (PoLocals options in_options current_option true)
        else if startswith stripped_line "-" then
          let parts := re_split_ws2 stripped_line in
          part0 ← parts !! 0%nat;
          let flags := strip part0 in
          let desc := match parts !! 1%nat with
                      | Some part1 => strip part1
                      | None => ""
                      end in
          parse_options_loop lines'
            (options ++ [{| o_flags := flags; o_description := desc |}])
            in_options (Some (List.length options))
        else match current_option with
             | Some i =>
                 if nonempty stripped_line
                 then parse_options_loop lines'
                        (alter (extend_description stripped_line) i options)
                        in_options current_option
                 else parse_options_loop lines' options in_options current_option
             | None => parse_options_loop lines' options in_options current_option
             end
      else parse_options_loop lines' options in_options current_option
  end.

Definition parse_options (lines : list string) : option (list cli_option) :=
  po_options <$> parse_options_loop lines [] false None.

(** The test that ends the commands section (the [break] of
    [parse_sub_commands]). *)
Definition commands_break (line : string) : bool :=
  let stripped_line := strip line in
  startswith stripped_line "Options:" || startswith stripped_line "Arguments:"
  || (nonempty stripped_line && negb (startswith line " ")).

Fixpoint parse_sub_commands_loop (lines : list string) (sub_commands : list string)
    (in_commands : bool) : list string :=
  match lines with
  | [] => sub_commands
  | line :: lines' =>
      let stripped_line := strip line in
      if startswith stripped_line "Commands:"
      then parse_sub_commands_loop lines' sub_commands true
      else if in_commands then
        if commands_break line then sub_commands
        else if nonempty stripped_line then
          match re_split_ws2 stripped_line with
          | part0 :: _ =>
              parse_sub_commands_loop lines' (sub_commands ++ [strip part0]) in_commands
          | [] => parse_sub_commands_loop lines' sub_commands in_commands
          end
        else parse_sub_commands_loop lines' sub_commands in_commands
      else parse_sub_commands_loop lines' sub_commands in_commands
  end.

Definition parse_sub_commands (lines : list string) : list string :=
  parse_sub_commands_loop lines [] false.

(** ** The tree walker *)

(** What the [try] block of [get_help_output] comes to: one of the three
    ways it can raise, or the decoded standard output. *)
Inductive invocation :=
| SpawnFailure
| TimedOut
| DecodeFailure
| Decoded (stdout : string).

(** [get_help_output], as a function of what the external call came to. *)
Definition get_help_output (r : invocation) : string :=
  match r with
  | Decoded stdout => strip stdout
  | SpawnFailure | TimedOut | DecodeFailure => ""
  end.

(** [[f.strip() for f in option["flags"].split(",")]] *)
Definition flag_variants (o : cli_option) : list string :=
  strip <$> split ","%char (o_flags o).

(** The loop over [options] of [process_command]. *)
Fixpoint process_options (command_path : list string) (usage description : string)
    (options : list cli_option) (entries : list entry) : list entry :=
  match options with
  | [] => entries
  | o :: options' =>
      let flags := flag_variants o in
      if bool_decide ("-h" ∈ flags)
      then process_options command_path usage description options' entries
      else
        let combined_flags := join " / " flags in
        let full_command :=
          "verdi " +:+ join " " (command_path ++ [combined_flags]) in
        let e := {| e_command := full_command;
                    e_usage := usage;
                    e_description :=
                      strip (description +:+ " " +:+ o_description o) |} in
        process_options command_path usage description options' (entries ++ [e])
  end.

(** What [process_command] does for [command_path] once [help_text] is there,
    up to the [gather]: the new value of the shared list [entries] and the
    command paths of the sub-tasks it creates.  There is no suspension point
    in this part of the coroutine, so it runs as one step.  [None] stands for
    an exception leaving the coroutine. *)
Definition process_help_text (command_path : list string) (help_text : string)
    (entries : list entry) : option (list entry * list (list string)) :=
  if negb (nonempty help_text) then Some (entries, [])
  else
    let lines := split "010"%char help_text in
    let usage := parse_usage lines in
    let description := parse_description lines in
    options ← parse_options lines;
    let sub_commands := parse_sub_commands lines in
    let entries := process_options command_path usage description options entries in
    match sub_commands with
    | _ :: _ =>
        Some (entries, (λ sub_cmd, command_path ++ [sub_cmd]) <$> sub_commands)
    | [] =>
        let full_command := "verdi " +:+ join " " command_path in
        Some (entries ++ [{| e_command := full_command;
                             e_usage := usage;
                             e_description := strip description |}], [])
    end.

(** Where a call of [process_command] stands: suspended at
    [async with semaphore], suspended in [get_help_output] with a permit, or
    past the part that touches [entries] (awaiting its sub-tasks or over). *)
Inductive phase := AwaitingPermit | InFlight | Processed.

Record task := Task {
  t_command_path : list string;
  t_phase : phase
}.

(** The event loop: the counter of the semaphore, every call of
    [process_command] made so far, the shared list, and whether an exception
    has left a coroutine (it would reach [main] through [gather]). *)
Record state := State {
  sem_value : nat;
  tasks : list task;
  entries : list entry;
  aborted : bool
}.

(** What the event loop does next: task [i] gets a permit, or the external
    call of task [i] comes to [r]. *)
Inductive event :=
| Acquire (i : nat)
| Return (i : nat) (r : invocation).

Definition step (st : state) (ev : event) : option state :=
  if aborted st then None
  else match ev with
       | Acquire i =>
           match tasks st !! i with
           | Some (Task command_path AwaitingPermit) =>
               match sem_value st with
               | S v =>
                   Some {| sem_value := v;
                           tasks := <[i := Task command_path InFlight]> (tasks st);
                           entries := entries st;
                           aborted := false |}
               | O => None
               end
           | _ => None
           end
       | Return i r =>
           match tasks st !! i with
           | Some (Task command_path InFlight) =>
               let help_text := get_help_output r in
               let released := S (sem_value st) in
               let done := <[i := Task command_path Processed]> (tasks st) in
               match process_help_text command_path help_text (entries st) with
               | Some (entries', sub_paths) =>
                   Some {| sem_value := released;
                           tasks := done ++ ((λ p, Task p AwaitingPermit) <$> sub_paths);
                           entries := entries';
                           aborted := false |}
               | None =>
                   Some {| sem_value := released;
                           tasks := done;
                           entries := entries st;
                           aborted := true |}
               end
           | _ => None
           end
       end.

Fixpoint run (st : state) (evs : list event) : option state :=
  match evs with
  | [] => Some st
  | ev :: evs' => st' ← step st ev; run st' evs'
  end.

(** [main]: a fresh semaphore and list, and the call for the root. *)
Definition main_state : state :=
  {| sem_value := CONCURRENCY_LIMIT;
     tasks := [Task [] AwaitingPermit];
     entries := [];
     aborted := false |}.

(** The calls of [get_help_output] that have not returned yet. *)
Definition holds_permit (t : task) : bool :=
  match t_phase t with
  | InFlight => true
  | AwaitingPermit | Processed => false
  end.

Definition in_flight (st : state) : nat :=
  List.length (List.filter holds_permit (tasks st)).

(** The help text of the worked example. *)
Definition example_lines : list string :=
  [ "Usage: tool sub [OPTIONS]";
    "";
    "Does a thing.";
    "";
    "Options:";
    "  -h, --help     Show help.";
    "  -v, --verbose  Be verbose.";
    "                 Very verbose.";
    "Commands:";
    "  foo  Does foo.";
    "  bar  Does bar." ].

(** ** Vocabulary of the statements *)

(** Every character is whitespace (the empty string included). *)
Fixpoint whitespace_only (s : string) : bool :=
  match s with
  | EmptyString => true
  | String c s' => isspace c && whitespace_only s'
  end.

(** Nothing to strip at either end. *)
Definition stripped (s : string) : Prop := lstrip s = s ∧ rstrip s = s.

(** The line opens (or re-opens) the options section. *)
Definition options_header (line : string) : bool :=
  startswith (strip line) "Options:".

(** The line opens (or re-opens) the commands section. *)
Definition commands_header (line : string) : bool :=
  startswith (strip line) "Commands:".

(** [current_option] refers to the option opened last. *)
Definition current_is_last (options : list cli_option)
    (current_option : option nat) : Prop :=
  match current_option with
  | Some i => S i = List.length options
  | None => options = []
  end.

(** What one option adds to [entries]. *)
Definition option_entry (command_path : list string) (usage description : string)
    (o : cli_option) : list entry :=
  if bool_decide ("-h" ∈ flag_variants o) then []
  else [ {| e_command :=
              "verdi " +:+ join " " (command_path ++ [join " / " (flag_variants o)]);
            e_usage := usage;
            e_description := strip (description +:+ " " +:+ o_description o) |} ].

(** Every permit taken from the semaphore is held by a call of
    [get_help_output] that has not returned. *)
Definition permits_accounted (st : state) : Prop :=
  (sem_value st + in_flight st = CONCURRENCY_LIMIT)%nat.

(** What the call for [command_path] adds to [entries] for its options,
    for itself as a leaf, and the sub-tasks it creates. *)
Definition node_option_entries (command_path : list string) (help_text : string)
  : list entry :=
  if nonempty help_text then
    let lines := split "010"%char help_text in
    match parse_options lines with
    | Some options =>
        flat_map (option_entry command_path (parse_usage lines)
                    (parse_description lines)) options
    | None => []
    end
  else [].

Definition node_leaf_entry (command_path : list string) (help_text : string)
  : list entry :=
  if nonempty help_text then
    let lines := split "010"%char help_text in
    match parse_sub_commands lines with
    | [] => [ {| e_command := "verdi " +:+ join " " command_path;
                 e_usage := parse_usage lines;
                 e_description := parse_description lines |} ]
    | _ :: _ => []
    end
  else [].

Definition node_sub_paths (command_path : list string) (help_text : string)
  : list (list string) :=
  if nonempty help_text then
    (λ sub_cmd, command_path ++ [sub_cmd])
      <$> parse_sub_commands (split "010"%char help_text)
  else [].

Definition node_entries (node : list string * string) : list entry :=
  node_option_entries node.1 node.2 ++ node_leaf_entry node.1 node.2.

(** The node a [Return] event completes, with the help text it got. *)
Definition returned_node (st : state) (ev : event) : list (list string * string) :=
  match ev with
  | Return i r =>
      match tasks st !! i with
      | Some t => [(t_command_path t, get_help_output r)]
      | None => []
      end
  | Acquire _ => []
  end.

(** The nodes completed along a schedule, in the order of completion. *)
Fixpoint returned (st : state) (evs : list event) : list (list string * string) :=
  match evs with
  | [] => []
  | ev :: evs' =>
      match step st ev with
      | Some st' => returned_node st ev ++ returned st' evs'
      | None => []
      end
  end.

(** All the calls of [process_command] are past their own step: [main] is
    about to write [entries] out. *)
Definition finished (st : state) : bool :=
  forallb (λ t, match t_phase t with
                | Processed => true
                | AwaitingPermit | InFlight => false
                end) (tasks st).

(** The task an event is about, and whether the event is a return. *)
Definition event_key (ev : event) : nat * bool :=
  match ev with
  | Acquire i => (i, false)
  | Return i _ => (i, true)
  end.

(** How far a call has come. *)
Definition phase_rank (ph : phase) : nat :=
  match ph with
  | AwaitingPermit => 0
  | InFlight => 1
  | Processed => 2
  end.

#[global] Instance invocation_eq_dec : EqDecision invocation.
Proof. solve_decision. Defined.

(** An external program whose help output depends on the command path
    only: the schedules in which every call for [command_path] comes to
    [world command_path]. *)
Fixpoint follows (world : list string → invocation) (st : state)
    (evs : list event) : bool :=
  match evs with
  | [] => true
  | ev :: evs' =>
      match ev with
      | Acquire _ => true
      | Return i r =>
          match tasks st !! i with
          | Some t => bool_decide (r = world (t_command_path t))
          | None => true
          end
      end
      && match step st ev with
         | Some st' => follows world st' evs'
         | None => true
         end
  end.

(** How many times [q] stands in [l]. *)
Definition occurrences (q : list string) (l : list (list string)) : nat :=
  count_occ (λ x y, decide (x = y)) l q.

(** The command paths of the calls that are past their own step. *)
Definition processed_paths (ts : list task) : list (list string) :=
  t_command_path <$>
    List.filter (λ t, match t_phase t with
                      | Processed => true
                      | AwaitingPermit | InFlight => false
                      end) ts.

(** The external call raised: it could not be spawned, it timed out, or its
    output could not be decoded. *)
Definition failed (r : invocation) : Prop :=
  match r with
  | Decoded _ => False
  | SpawnFailure | TimedOut | DecodeFailure => True
  end.

(** A small command tree: the root lists the sub-commands [a] and [b]. *)
Definition root_help : string :=
  "Usage: verdi [OPTIONS] COMMAND

Options:
  -v, --verbose  Be verbose.
  -h, --help     Show help.

Commands:
  a  First.
  b  Second.".

Definition leaf_help : string :=
  "Usage: verdi b [OPTIONS]

Second.

Options:
  -n, --dry-run  Do nothing.".

(** A world for the small command tree above. *)
Definition small_world (command_path : list string) : invocation :=
  match command_path with
  | [] => Decoded root_help
  | [_] => Decoded leaf_help
  | _ => SpawnFailure
  end.

(** In a world, the sub-tasks that the call for [command_path] creates and
    the entries it adds. *)
Definition world_sub_paths (world : list string → invocation)
    (command_path : list string) : list (list string) :=
  node_sub_paths command_path (get_help_output (world command_path)).

Definition world_entries (world : list string → invocation)
    (command_path : list string) : list entry :=
  node_entries (command_path, get_help_output (world command_path)).

(** What a run that follows a world keeps true: the command paths of the
    calls made so far are the root and the sub-paths of the processed ones,
    and [entries] holds the entries of the processed ones. *)
Definition accounted (world : list string → invocation) (st : state) : Prop :=
  t_command_path <$> tasks st ≡ₚ
    [] :: flat_map (world_sub_paths world) (processed_paths (tasks st)) ∧
  entries st ≡ₚ flat_map (world_entries world) (processed_paths (tasks st)).

(** [size] counts the nodes of the command tree of a world below each
    command path; such a function exists when the tree is finite. *)
Definition counts_nodes (world : list string → invocation)
    (size : list string → nat) : Prop :=
  ∀ command_path,
    size command_path =
    S (sum_list_with size (world_sub_paths world command_path)).

(** The events a call and the calls below it still have to take: two for
    each node of its tree, one less once it holds its permit. *)
Definition task_cost (size : list string → nat) (t : task) : nat :=
  match t_phase t with
  | AwaitingPermit => 2 * size (t_command_path t)
  | InFlight => 2 * size (t_command_path t) - 1
  | Processed => 0
  end.

Definition remaining (size : list string → nat) (st : state) : nat :=
  sum_list_with (task_cost size) (tasks st).

(** The node counts of the small command tree. *)
Definition small_size (command_path : list string) : nat :=
  match command_path with
  | [] => 3
  | _ :: _ => 1
  end.

(** No character is whitespace. *)
Fixpoint has_no_space (s : string) : bool :=
  match s with
  | EmptyString => true
  | String c s' => negb (isspace c) && has_no_space s'
  end.

(** One row of the table that a help text prints for its options or its
    sub-commands: the indentation, the first column, the gap between the
    columns, and the text of the second column. *)
Record table_row := TableRow {
  r_indent : string;
  r_key : string;
  r_gap : string;
  r_text : string
}.

Definition render_row (r : table_row) : string :=
  r_indent r +:+ r_key r +:+ r_gap r +:+ r_text r.

(** A first column as the parser returns it: not empty, trimmed, without a
    run of two or more whitespace characters. *)
Definition key_ok (key : string) : Prop :=
  key ≠ "" ∧ strip key = key ∧ re_search_ws2 key = None.

(** A row as such a table has it: indented by spaces, with a well-formed
    first column and, unless the second column is blank, a gap of at least
    two whitespace characters. *)
Definition row_ok (r : table_row) : Prop :=
  startswith (r_indent r) " " = true ∧
  whitespace_only (r_indent r) = true ∧
  key_ok (r_key r) ∧
  whitespace_only (r_gap r) = true ∧
  (whitespace_only (r_text r) = true ∨ (2 ≤ String.length (r_gap r))%nat).

(** ** Facts about the string primitives *)

Section strip_facts.

Lemma lstrip_whitespace_only s : whitespace_only s = true → lstrip s = "".
Proof.
  induction s as [|c s IH]; simpl; [done|].
  intros [Hc Hs]%andb_true_iff. rewrite Hc. auto.
Qed.

Lemma lstrip_empty_inv s : lstrip s = "" → whitespace_only s = true.
Proof.
  induction s as [|c s IH]; simpl; [done|].
  destruct (isspace c); [auto | discriminate].
Qed.

Lemma lstrip_head s c t : lstrip s = String c t → isspace c = false.
Proof.
  induction s as [|a s IH]; simpl; [discriminate|].
  destruct (isspace a) eqn:Ha; [auto|].
  intros [= <- _]. exact Ha.
Qed.

Lemma rstrip_cons_nonspace c t :
  isspace c = false → ∃ r, rstrip (String c t) = String c r.
Proof.
  intros Hc. simpl. destruct (rstrip t); [rewrite Hc|]; eauto.
Qed.

Lemma rstrip_idemp s : rstrip (rstrip s) = rstrip s.
Proof.
  induction s as [|c s IH]; simpl; [done|].
  destruct (rstrip s) as [|a r] eqn:Hr.
  - destruct (isspace c) eqn:Hc; simpl; [done | by rewrite Hc].
  - change (rstrip (String c (String a r))) with
      (match rstrip (String a r) with
       | EmptyString => if isspace c then EmptyString else String c EmptyString
       | r' => String c r'
       end).
    by rewrite IH.
Qed.

Lemma strip_whitespace_only s : whitespace_only s = true → strip s = "".
Proof. intros H. unfold strip. by rewrite lstrip_whitespace_only. Qed.

Lemma strip_empty_inv s : strip s = "" → whitespace_only s = true.
Proof.
  unfold strip. intros H. apply lstrip_empty_inv.
  destruct (lstrip s) as [|c t] eqn:Hl; [done|].
  destruct (rstrip_cons_nonspace c t (lstrip_head _ _ _ Hl)) as [r Hr].
  congruence.
Qed.

Lemma strip_stripped s : stripped (strip s).
Proof.
  unfold stripped, strip. split; [|apply rstrip_idemp].
  destruct (lstrip s) as [|c t] eqn:Hl; [done|].
  pose proof (lstrip_head _ _ _ Hl) as Hc.
  destruct (rstrip_cons_nonspace c t Hc) as [r ->].
  simpl. by rewrite Hc.
Qed.

Lemma stripped_strip s : stripped s → strip s = s.
Proof. intros [Hl Hr]. unfold strip. by rewrite Hl. Qed.

Lemma string_app_cons c a b : String c a +:+ b = String c (a +:+ b).
Proof. reflexivity. Qed.

Lemma lstrip_app_l a x : a ≠ "" → lstrip a = a → lstrip (a +:+ x) = a +:+ x.
Proof.
  destruct a as [|c a]; [done|]. intros _. rewrite string_app_cons. simpl.
  destruct (isspace c) eqn:Hc; [|done].
  intros H. pose proof (lstrip_head a c a) as Hh.
  exfalso. clear -H Hc.
  assert (Hlen : ∀ t, (String.length (lstrip t) ≤ String.length t)%nat).
  { induction t as [|b t IH]; simpl; [lia|]. destruct (isspace b); simpl; lia. }
  specialize (Hlen a). rewrite H in Hlen. simpl in Hlen. lia.
Qed.

Lemma rstrip_app_r x b : b ≠ "" → rstrip b = b → rstrip (x +:+ b) = x +:+ b.
Proof.
  intros Hb Hr. induction x as [|c x IH]; [done|].
  rewrite string_app_cons. simpl. rewrite IH. destruct (x +:+ b) eqn:Hx; [|done].
  destruct x; [done | discriminate].
Qed.

Lemma string_app_nil_inv a b : a +:+ b = "" → a = "" ∧ b = "".
Proof. destruct a; [done | discriminate]. Qed.

Lemma string_app_assoc a b c : (a +:+ b) +:+ c = a +:+ b +:+ c.
Proof. induction a as [|x a IH]; [done |]. by rewrite !string_app_cons, IH. Qed.

Lemma stripped_glue a sep b :
  stripped a → a ≠ "" → stripped b → b ≠ "" → stripped (a +:+ sep +:+ b).
Proof.
  intros [Hal _] Ha [_ Hbr] Hb. split.
  - by apply lstrip_app_l.
  - rewrite <- string_app_assoc. by apply rstrip_app_r.
Qed.

Lemma stripped_join sep pieces :
  Forall (λ p, stripped p ∧ p ≠ "") pieces → stripped (join sep pieces).
Proof.
  induction 1 as [|p ps [Hp Hne] Hps IH]; [done|].
  destruct ps as [|q ps]; [done|].
  change (join sep (p :: q :: ps)) with (p +:+ sep +:+ join sep (q :: ps)).
  apply stripped_glue; try done.
  inversion Hps as [|? ? [_ Hq] _]; subst.
  destruct ps; simpl; [done|].
  intros [-> _]%string_app_nil_inv. done.
Qed.

End strip_facts.

(** ** Facts about the parser *)

#[local] Arguments startswith : simpl never.
#[local] Arguments strip : simpl never.
#[local] Arguments options_break : simpl never.
#[local] Arguments commands_break : simpl never.
#[local] Arguments re_split_ws2 : simpl never.
#[local] Arguments process_help_text : simpl never.
#[local] Arguments get_help_output : simpl never.

Section parser_facts.

Lemma re_split_ws2_first s : ∃ part0, re_split_ws2 s !! 0%nat = Some part0.
Proof. unfold re_split_ws2. destruct (re_search_ws2 s) as [[? ?]|]; eauto. Qed.

Lemma parse_options_loop_total lines : ∀ options in_options current_option,
  is_Some (parse_options_loop lines options in_options current_option).
Proof.
  induction lines as [|line lines IH]; intros; simpl; [eauto|].
  destruct (startswith (strip line) "Options:"); [apply IH|].
  destruct in_options; [|apply IH].
  destruct (options_break line); [eauto|].
  destruct (startswith (strip line) "-").
  - destruct (re_split_ws2_first (strip line)) as [part0 ->]. simpl. apply IH.
  - destruct current_option; [destruct (nonempty (strip line))|]; apply IH.
Qed.

Lemma parse_options_total lines : is_Some (parse_options lines).
Proof.
  unfold parse_options.
  destruct (parse_options_loop_total lines [] false None) as [st ->]. eauto.
Qed.

Lemma parse_options_loop_app pre rest : ∀ options in_options current_option,
  parse_options_loop (pre ++ rest) options in_options current_option =
  st ← parse_options_loop pre options in_options current_option;
  if po_break st then Some st
  else parse_options_loop rest (po_options st) (po_in_options st)
         (po_current_option st).
Proof.
  induction pre as [|line pre IH]; intros; simpl; [done|].
  destruct (startswith (strip line) "Options:"); [apply IH|].
  destruct in_options; [|apply IH].
  destruct (options_break line); [done|].
  destruct (startswith (strip line) "-").
  - destruct (re_split_ws2 (strip line) !! 0%nat); simpl; [apply IH | done].
  - destruct current_option; [destruct (nonempty (strip line))|]; apply IH.
Qed.

(** Once a header has been seen the loop is in the section or has left it
    through [break]. *)
Lemma parse_options_loop_opened pre : ∀ options in_options current_option st,
  parse_options_loop pre options in_options current_option = Some st →
  in_options = true ∨ Exists (λ l, options_header l = true) pre →
  po_break st = true ∨ po_in_options st = true.
Proof.
  unfold options_header.
  induction pre as [|line pre IH]; intros options in_options current_option st;
    simpl.
  - intros [= <-] [->|H]; simpl; [auto | inversion H].
  - destruct (startswith (strip line) "Options:") eqn:Hh.
    { intros Hst _. eapply IH; eauto. }
    intros Hst Hopen.
    assert (in_options = true ∨
            Exists (λ l, startswith (strip l) "Options:" = true) pre) as Hopen'.
    { destruct Hopen as [?|H]; [auto|]. inversion H; subst; [congruence | auto]. }
    clear Hopen. destruct in_options; [|eapply IH; eauto].
    destruct (options_break line); [injection Hst as <-; auto|].
    destruct (startswith (strip line) "-").
    + destruct (re_split_ws2 (strip line) !! 0%nat); simpl in Hst;
        [eapply IH; eauto | discriminate].
    + destruct current_option; [destruct (nonempty (strip line))|];
        eapply IH; eauto.
Qed.

Lemma parse_options_stops_at pre b rest :
  Exists (λ l, options_header l = true) pre →
  options_header b = false →
  options_break b = true →
  parse_options (pre ++ b :: rest) = parse_options pre.
Proof.
  intros Hpre Hb Hbreak. unfold parse_options.
  rewrite parse_options_loop_app.
  destruct (parse_options_loop pre [] false None) as [st|] eqn:Hst; [|done].
  simpl. destruct (po_break st) eqn:Hbr; [done|].
  destruct (parse_options_loop_opened _ _ _ _ _ Hst (or_intror Hpre)) as [?|Hin];
    [congruence|].
  simpl. unfold options_header in Hb. rewrite Hb, Hin, Hbreak. done.
Qed.

Lemma parse_sub_commands_stops_at pre b rest : ∀ sub_commands in_commands,
  in_commands = true ∨ Exists (λ l, commands_header l = true) pre →
  commands_header b = false →
  commands_break b = true →
  parse_sub_commands_loop (pre ++ b :: rest) sub_commands in_commands =
  parse_sub_commands_loop pre sub_commands in_commands.
Proof.
  unfold commands_header.
  induction pre as [|line pre IH]; intros sub_commands in_commands Hopen Hb Hbreak;
    simpl.
  - destruct Hopen as [->|H]; [|inversion H]. by rewrite Hb, Hbreak.
  - destruct (startswith (strip line) "Commands:") eqn:Hh; [apply IH; auto|].
    assert (in_commands = true ∨
            Exists (λ l, startswith (strip l) "Commands:" = true) pre) as Hopen'.
    { destruct Hopen as [?|H]; [auto|]. inversion H; subst; [congruence | auto]. }
    destruct in_commands; [|apply IH; auto].
    destruct (commands_break line); [done|].
    destruct (nonempty (strip line)); [|apply IH; auto].
    destruct (re_split_ws2 (strip line)); apply IH; auto.
Qed.

End parser_facts.

Section continuation_facts.

Lemma parse_options_loop_current lines : ∀ options in_options current_option st,
  parse_options_loop lines options in_options current_option = Some st →
  current_is_last options current_option →
  current_is_last (po_options st) (po_current_option st).
Proof.
  induction lines as [|line lines IH]; intros options in_options current_option st;
    simpl.
  - by intros [= <-].
  - destruct (startswith (strip line) "Options:"); [apply IH|].
    destruct in_options; [|apply IH].
    destruct (options_break line); [by intros [= <-]|].
    destruct (startswith (strip line) "-").
    + destruct (re_split_ws2 (strip line) !! 0%nat); simpl; [|discriminate].
      intros Hst _. eapply IH; [exact Hst|].
      simpl. rewrite length_app. simpl. lia.
    + destruct current_option as [i|]; [destruct (nonempty (strip line))|];
        try apply IH.
      intros Hst Hcur. eapply IH; [exact Hst|].
      simpl in *. by rewrite length_alter.
Qed.

Lemma alter_last {A} (f : A → A) (l : list A) (x : A) :
  alter f (List.length l) (l ++ [x]) = l ++ [f x].
Proof.
  replace (List.length l) with (List.length l + 0)%nat by lia.
  by rewrite alter_app_r.
Qed.

(** One more line after [pre], when the loop is still in the section with
    [o] as the option opened last, and the line reaches the last branch. *)
Lemma parse_options_loop_continuation pre line opts o cur :
  parse_options_loop pre [] false None = Some (PoLocals (opts ++ [o]) true cur false) →
  options_header line = false →
  options_break line = false →
  startswith (strip line) "-" = false →
  nonempty (strip line) = true →
  parse_options_loop (pre ++ [line]) [] false None =
    Some (PoLocals (opts ++ [extend_description (strip line) o]) true cur false).
Proof.
  intros Hpre Hh Hb Hd Hn.
  pose proof (parse_options_loop_current _ _ _ _ _ Hpre eq_refl) as Hcur.
  rewrite parse_options_loop_app, Hpre. simpl.
  unfold options_header in Hh. rewrite Hh, Hb, Hd.
  destruct cur as [i|]; simpl in Hcur.
  - rewrite Hn. rewrite length_app in Hcur. simpl in Hcur.
    assert (i = List.length opts) as -> by lia.
    by rewrite alter_last.
  - by destruct opts.
Qed.

(** An option line in the section opens an option, whatever its flags. *)
Lemma parse_options_loop_opens pre line opts cur :
  parse_options_loop pre [] false None = Some (PoLocals opts true cur false) →
  options_header line = false →
  options_break line = false →
  startswith (strip line) "-" = true →
  ∃ o, parse_options (pre ++ [line]) = Some (opts ++ [o]) ∧
       Some (o_flags o) = strip <$> re_split_ws2 (strip line) !! 0%nat.
Proof.
  intros Hpre Hh Hb Hd. unfold parse_options.
  rewrite parse_options_loop_app, Hpre. simpl.
  unfold options_header in Hh. rewrite Hh, Hb, Hd.
  destruct (re_split_ws2_first (strip line)) as [part0 ->]. simpl.
  eexists. split; [reflexivity | done].
Qed.

End continuation_facts.

(** ** Facts about the walker *)

Section walker_facts.

Lemma process_options_flat_map command_path usage description options :
  ∀ entries,
    process_options command_path usage description options entries =
    entries ++ flat_map (option_entry command_path usage description) options.
Proof.
  induction options as [|o options IH]; intros entries; simpl.
  - by rewrite app_nil_r.
  - unfold option_entry at 1. destruct (bool_decide _); [apply IH|].
    rewrite IH. by rewrite <- app_assoc.
Qed.

Lemma parse_description_loop_stripped lines : ∀ description,
  Forall (λ p, stripped p ∧ p ≠ "") description →
  Forall (λ p, stripped p ∧ p ≠ "") (parse_description_loop lines description).
Proof.
  induction lines as [|line lines IH]; intros description Hd; [done|].
  cbn [parse_description_loop].
  destruct (startswith (strip line) "Options:" || startswith (strip line) "Commands:");
    [done|].
  destruct (nonempty (strip line)) eqn:Hn; simpl; [|by apply IH].
  destruct (startswith line "Usage: "); simpl; [by apply IH|].
  apply IH. apply Forall_app. split; [done|].
  constructor; [|done]. split; [apply strip_stripped|].
  by destruct (strip line).
Qed.

Lemma parse_description_stripped lines :
  strip (parse_description lines) = parse_description lines.
Proof.
  apply stripped_strip, stripped_join.
  by apply parse_description_loop_stripped.
Qed.

Lemma process_help_text_total command_path help_text entries :
  is_Some (process_help_text command_path help_text entries).
Proof.
  unfold process_help_text. destruct (negb (nonempty help_text)); [eauto|].
  destruct (parse_options_total (split "010" help_text)) as [options ->]. simpl.
  destruct (parse_sub_commands _); eauto.
Qed.

Lemma process_help_text_empty command_path entries :
  process_help_text command_path "" entries = Some (entries, []).
Proof. reflexivity. Qed.

End walker_facts.

Section scheduler_facts.

Lemma in_flight_insert ts i t t' :
  ts !! i = Some t →
  (List.length (List.filter holds_permit (<[i := t']> ts))
     + (if holds_permit t then 1 else 0)
   = List.length (List.filter holds_permit ts)
     + (if holds_permit t' then 1 else 0))%nat.
Proof.
  revert i. induction ts as [|a ts IH]; intros [|i]; simpl; try done.
  - intros [= ->]. destruct (holds_permit t), (holds_permit t'); simpl; lia.
  - intros H. specialize (IH i H). destruct (holds_permit a); simpl; lia.
Qed.

Lemma in_flight_sub_tasks (sub_paths : list (list string)) :
  List.filter holds_permit ((λ p, Task p AwaitingPermit) <$> sub_paths) = [].
Proof. induction sub_paths; simpl; done. Qed.

Lemma step_permits_accounted st ev st' :
  step st ev = Some st' → permits_accounted st → permits_accounted st'.
Proof.
  unfold step, permits_accounted, in_flight.
  destruct (aborted st); [discriminate|].
  destruct ev as [i|i r]; destruct (tasks st !! i) as [[p []]|] eqn:Hi;
    try discriminate.
  - destruct (sem_value st) as [|v]; [discriminate|]. intros [= <-]. simpl.
    pose proof (in_flight_insert _ _ _ (Task p InFlight) Hi) as H.
    simpl in H. lia.
  - pose proof (in_flight_insert _ _ _ (Task p Processed) Hi) as H.
    simpl in H.
    destruct (process_help_text p (get_help_output r) (entries st))
      as [[entries' sub_paths]|]; intros [= <-]; simpl.
    + rewrite List.filter_app, in_flight_sub_tasks, app_nil_r. lia.
    + lia.
Qed.

Lemma run_permits_accounted evs : ∀ st st',
  run st evs = Some st' → permits_accounted st → permits_accounted st'.
Proof.
  induction evs as [|ev evs IH]; intros st st'; simpl.
  - by intros [= <-].
  - destruct (step st ev) as [st1|] eqn:Hstep; simpl; [|discriminate].
    intros Hrun Hinv. eapply IH; [exact Hrun|].
    by eapply step_permits_accounted.
Qed.

Lemma main_state_permits_accounted : permits_accounted main_state.
Proof. reflexivity. Qed.

Lemma step_not_aborted st ev st' : step st ev = Some st' → aborted st' = false.
Proof.
  unfold step. destruct (aborted st); [discriminate|].
  destruct ev as [i|i r]; destruct (tasks st !! i) as [[p []]|];
    try discriminate.
  - destruct (sem_value st); [discriminate|]. by intros [= <-].
  - destruct (process_help_text_total p (get_help_output r) (entries st))
      as [[entries' sub_paths] ->].
    by intros [= <-].
Qed.

Lemma run_not_aborted evs : ∀ st st',
  run st evs = Some st' → aborted st = false → aborted st' = false.
Proof.
  induction evs as [|ev evs IH]; intros st st'; simpl.
  - by intros [= <-].
  - destruct (step st ev) as [st1|] eqn:Hstep; simpl; [|discriminate].
    intros Hrun _. eapply IH; [exact Hrun|]. by eapply step_not_aborted.
Qed.

Lemma process_help_text_node command_path help_text entries :
  process_help_text command_path help_text entries =
  Some (entries ++ node_option_entries command_path help_text
                ++ node_leaf_entry command_path help_text,
        node_sub_paths command_path help_text).
Proof.
  unfold process_help_text, node_option_entries, node_leaf_entry, node_sub_paths.
  destruct (nonempty help_text); simpl; [|by rewrite app_nil_r].
  destruct (parse_options_total (split "010" help_text)) as [options ->]. simpl.
  rewrite process_options_flat_map, parse_description_stripped.
  destruct (parse_sub_commands _); simpl.
  - by rewrite app_assoc.
  - by rewrite app_nil_r.
Qed.

Lemma step_entries st ev st' :
  step st ev = Some st' →
  entries st' = entries st ++ flat_map node_entries (returned_node st ev).
Proof.
  unfold step, returned_node. destruct (aborted st); [discriminate|].
  destruct ev as [i|i r]; destruct (tasks st !! i) as [[p []]|];
    try discriminate.
  - destruct (sem_value st); [discriminate|]. intros [= <-]. simpl.
    by rewrite app_nil_r.
  - rewrite process_help_text_node. intros [= <-]. simpl.
    unfold node_entries. simpl. by rewrite app_nil_r.
Qed.

Lemma run_entries evs : ∀ st st',
  run st evs = Some st' →
  entries st' = entries st ++ flat_map node_entries (returned st evs).
Proof.
  induction evs as [|ev evs IH]; intros st st'; simpl.
  - intros [= <-]. by rewrite app_nil_r.
  - destruct (step st ev) as [st1|] eqn:Hstep; simpl; [|discriminate].
    intros Hrun. rewrite (IH _ _ Hrun), (step_entries _ _ _ Hstep).
    by rewrite flat_map_app, app_assoc.
Qed.

Lemma flat_map_block {A B} (f : A → list B) (xs : list A) k x i :
  xs !! k = Some x →
  (i < List.length (f x))%nat →
  flat_map f xs !! (List.length (flat_map f (take k xs)) + i)%nat = f x !! i.
Proof.
  intros Hk Hi.
  assert (flat_map f xs =
          flat_map f (take k xs) ++ f x ++ flat_map f (drop (S k) xs)) as ->.
  { rewrite <- (take_drop_middle xs k x Hk) at 1. by rewrite flat_map_app. }
  rewrite lookup_app_r by lia.
  replace (_ + i - _)%nat with i by lia.
  by rewrite lookup_app_l.
Qed.

End scheduler_facts.

(** ** Facts about flags: an option entry never names the bare command *)

Section flag_facts.

Lemma startswith_dash_inv s : startswith s "-" = true → ∃ t, s = String "-" t.
Proof.
  destruct s as [|c t]; cbv [startswith]; [done|].
  destruct (Ascii.eqb "-" c) eqn:E; [|done].
  apply Ascii.eqb_eq in E. subst. eauto.
Qed.

Lemma strip_dash t : ∃ r, strip (String "-" t) = String "-" r.
Proof.
  unfold strip. change (lstrip (String "-" t)) with (String "-" t).
  by apply rstrip_cons_nonspace.
Qed.

Lemma re_search_ws2_nonspace c t :
  isspace c = false →
  re_search_ws2 (String c t) =
  match re_search_ws2 t with
  | Some (before, after) => Some (String c before, after)
  | None => None
  end.
Proof. intros Hc. destruct t; simpl; by rewrite ?Hc. Qed.

Lemma re_split_ws2_dash t part0 :
  re_split_ws2 (String "-" t) !! 0%nat = Some part0 → ∃ x, part0 = String "-" x.
Proof.
  unfold re_split_ws2. rewrite re_search_ws2_nonspace by reflexivity.
  destruct (re_search_ws2 t) as [[before after]|]; intros [= <-]; eauto.
Qed.

Lemma split_comma_dash t :
  ∃ piece pieces, split "," (String "-" t) = String "-" piece :: pieces.
Proof.
  change (split "," (String "-" t)) with
    (match split "," t with
     | piece :: pieces => String "-" piece :: pieces
     | [] => [String "-" EmptyString]
     end).
  destruct (split "," t); eauto.
Qed.

Lemma join_cons_nonempty sep a pieces : a ≠ "" → join sep (a :: pieces) ≠ "".
Proof.
  intros Ha. destruct pieces as [|b pieces]; [done|].
  change (join sep (a :: b :: pieces)) with (a +:+ sep +:+ join sep (b :: pieces)).
  by intros [? _]%string_app_nil_inv.
Qed.

Lemma string_app_length a b :
  String.length (a +:+ b) = (String.length a + String.length b)%nat.
Proof.
  induction a as [|c a IH]; [done|].
  rewrite string_app_cons. simpl. by rewrite IH.
Qed.

Lemma join_snoc_longer sep path x :
  x ≠ "" →
  (String.length (join sep path) < String.length (join sep (path ++ [x])))%nat.
Proof.
  intros Hx. induction path as [|a path IH].
  - destruct x; [done | simpl; lia].
  - destruct path as [|b path].
    + change (join sep ([a] ++ [x])) with (a +:+ sep +:+ x).
      rewrite !string_app_length. destruct x; [done | simpl; lia].
    + change (join sep ((a :: b :: path) ++ [x])) with
        (a +:+ sep +:+ join sep ((b :: path) ++ [x])).
      change (join sep (a :: b :: path)) with (a +:+ sep +:+ join sep (b :: path)).
      rewrite !string_app_length. lia.
Qed.

Lemma flag_variants_dash o :
  startswith (o_flags o) "-" = true → join " / " (flag_variants o) ≠ "".
Proof.
  intros [t Ht]%startswith_dash_inv. unfold flag_variants. rewrite Ht.
  destruct (split_comma_dash t) as (piece & pieces & ->).
  rewrite fmap_cons. destruct (strip_dash piece) as [r ->].
  by apply join_cons_nonempty.
Qed.

Lemma parse_options_loop_dash lines : ∀ options in_options current_option st,
  parse_options_loop lines options in_options current_option = Some st →
  Forall (λ o, startswith (o_flags o) "-" = true) options →
  Forall (λ o, startswith (o_flags o) "-" = true) (po_options st).
Proof.
  induction lines as [|line lines IH]; intros options in_options current_option st.
  - by intros [= <-].
  - cbn [parse_options_loop].
    destruct (startswith (strip line) "Options:"); [apply IH|].
    destruct in_options; [|apply IH].
    destruct (options_break line); [by intros [= <-]|].
    destruct (startswith (strip line) "-") eqn:Hd.
    + destruct (re_split_ws2 (strip line) !! 0%nat) as [part0|] eqn:Hp;
        [|discriminate].
      cbn [mbind option_bind]. intros Hst Hall. eapply IH; [exact Hst|].
      apply Forall_app. split; [done|]. constructor; [|done].
      cbn [o_flags]. destruct (startswith_dash_inv _ Hd) as [t Ht].
      rewrite Ht in Hp. destruct (re_split_ws2_dash _ _ Hp) as [x ->].
      by destruct (strip_dash x) as [r ->].
    + destruct current_option as [i|]; [destruct (nonempty (strip line))|];
        try apply IH.
      intros Hst Hall. eapply IH; [exact Hst|].
      apply Forall_alter; [done|]. by intros [].
Qed.

Lemma parse_options_dash lines options :
  parse_options lines = Some options →
  Forall (λ o, startswith (o_flags o) "-" = true) options.
Proof.
  unfold parse_options.
  destruct (parse_options_loop lines [] false None) as [st|] eqn:Hst;
    [|discriminate].
  intros [= <-]. by eapply parse_options_loop_dash.
Qed.

Lemma option_entry_not_bare command_path usage description o :
  startswith (o_flags o) "-" = true →
  Forall (λ e, e_command e ≠ "verdi " +:+ join " " command_path)
    (option_entry command_path usage description o).
Proof.
  intros Hd. unfold option_entry. destruct (bool_decide _); [done|].
  constructor; [|done]. cbn [e_command].
  intros Heq%(inj (String.app "verdi ")).
  pose proof (join_snoc_longer " " command_path _ (flag_variants_dash o Hd)) as Hlen.
  rewrite Heq in Hlen. lia.
Qed.

End flag_facts.

(** ** The specification, claim by claim *)

(** C1.  On the worked example of the specification [parse_usage] returns
    "tool sub [OPTIONS]", [parse_description] returns "Does a thing.",
    [parse_options] returns the two options "-h, --help" / "Show help." and
    "-v, --verbose" / "Be verbose. Very verbose." in that order, and
    [parse_sub_commands] returns "foo" and "bar" in that order. *)
Theorem example_help_text_facets :
  parse_usage example_lines = "tool sub [OPTIONS]" ∧
  parse_description example_lines = "Does a thing." ∧
  parse_options example_lines =
    Some [ {| o_flags := "-h, --help"; o_description := "Show help." |};
           {| o_flags := "-v, --verbose";
              o_description := "Be verbose. Very verbose." |} ] ∧
  parse_sub_commands example_lines = ["foo"; "bar"].
Proof. repeat split; vm_compute; reflexivity. Qed.

(** C2.  For a command path with a non-empty help text: when no sub-command
    is parsed, [process_command] appends the entries of the options and then
    exactly one leaf entry, whose command is "verdi" followed by the path
    tokens and whose usage and description are the parsed ones, and creates no
    sub-task; when sub-commands are parsed it appends the entries of the
    options only and creates one sub-task per name.  No entry of an option
    has the command of the leaf entry. *)
Theorem leaf_entry_iff_no_sub_commands
    (command_path : list string) (help_text : string) (entries : list entry) :
  help_text ≠ "" →
  let lines := split "010"%char help_text in
  let leaf := {| e_command := "verdi " +:+ join " " command_path;
                 e_usage := parse_usage lines;
                 e_description := parse_description lines |} in
  ∃ options,
    parse_options lines = Some options ∧
    let option_entries :=
      flat_map (option_entry command_path (parse_usage lines)
                  (parse_description lines)) options in
    (parse_sub_commands lines = [] →
       process_help_text command_path help_text entries =
       Some (entries ++ option_entries ++ [leaf], [])) ∧
    (parse_sub_commands lines ≠ [] →
       process_help_text command_path help_text entries =
       Some (entries ++ option_entries,
             (λ sub_cmd, command_path ++ [sub_cmd]) <$> parse_sub_commands lines)) ∧
    Forall (λ e, e_command e ≠ e_command leaf) option_entries.
Proof.
  intros Hne lines leaf.
  destruct (parse_options_total lines) as [options Hopts].
  exists options. split; [done|].
  pose proof (process_help_text_node command_path help_text entries) as Hnode.
  unfold node_option_entries, node_leaf_entry, node_sub_paths in Hnode.
  destruct help_text as [|c help_text]; [done|]. cbn [nonempty] in Hnode.
  fold lines in Hnode. rewrite Hopts in Hnode.
  split; [|split].
  - intros Hsub. rewrite Hnode, Hsub. done.
  - intros Hsub. rewrite Hnode.
    destruct (parse_sub_commands lines); [done|]. by rewrite app_nil_r.
  - apply Forall_flat_map, Forall_forall. intros o Ho.
    apply option_entry_not_bare.
    pose proof (parse_options_dash _ _ Hopts) as Hall.
    rewrite Forall_forall in Hall. by apply Hall.
Qed.

Lemma leaf_entry_iff_no_sub_commands_witness :
  "Usage: verdi node list" ≠ "" ∧
  process_help_text ["node"; "list"] "Usage: verdi node list" [] =
    Some ([ {| e_command := "verdi node list";
               e_usage := "verdi node list";
               e_description := "" |} ], []).
Proof.
  split; [discriminate|].
  destruct (leaf_entry_iff_no_sub_commands ["node"; "list"]
              "Usage: verdi node list" []) as (options & Hopts & Hleaf & _ & _);
    [discriminate|].
  vm_compute in Hopts. injection Hopts as <-.
  rewrite Hleaf; [|reflexivity]. vm_compute. reflexivity.
Defined.






(** C6, as the code has it.  When the loop of [parse_options] is in the
    options section after the lines [pre], with [o] the option opened last,
    a further line that does not end the section and whose trimmed content
    is non-empty and starts neither with "-" nor with "Options:" is appended
    to the description of [o] after one space, also when that description is
    empty; the other options are untouched and the section stays open. *)
Theorem continuation_extends_last_option pre line opts o cur :
  parse_options_loop pre [] false None =
    Some (PoLocals (opts ++ [o]) true cur false) →
  options_break line = false →
  strip line ≠ "" →
  startswith (strip line) "-" = false →
  startswith (strip line) "Options:" = false →
  let o' := {| o_flags := o_flags o;
               o_description := o_description o +:+ " " +:+ strip line |} in
  parse_options_loop (pre ++ [line]) [] false None =
    Some (PoLocals (opts ++ [o']) true cur false) ∧
  parse_options (pre ++ [line]) = Some (opts ++ [o']).
Proof.
  intros Hpre Hb Hn Hd Hh o'.
  assert (parse_options_loop (pre ++ [line]) [] false None =
          Some (PoLocals (opts ++ [o']) true cur false)) as Hloop.
  { apply parse_options_loop_continuation; try done.
    by destruct (strip line). }
  split; [done|]. unfold parse_options. by rewrite Hloop.
Qed.

Lemma continuation_extends_last_option_witness :
  parse_options ["Options:"; "  -v  Be verbose."; "      Very verbose."] =
    Some [ {| o_flags := "-v"; o_description := "Be verbose. Very verbose." |} ] ∧
  parse_options ["Options:"; "  --all"; "      Show all."] =
    Some [ {| o_flags := "--all"; o_description := " Show all." |} ].
Proof.
  split.
  - apply (continuation_extends_last_option ["Options:"; "  -v  Be verbose."]
             "      Very verbose." [] (CliOption "-v" "Be verbose.") (Some 0%nat));
      [reflexivity | reflexivity | discriminate | reflexivity | reflexivity].
  - apply (continuation_extends_last_option ["Options:"; "  --all"]
             "      Show all." [] (CliOption "--all" "") (Some 0%nat));
      [reflexivity | reflexivity | discriminate | reflexivity | reflexivity].
Defined.

(** C6, as it is stated, fails: in an open options section an indented line
    "Options: more" has a non-empty trimmed content that does not start with
    "-" and it does not end the section, yet it is taken as a header and
    nothing is appended to the description of the open option. *)
Lemma header_line_is_no_continuation :
  parse_options_loop ["Options:"; "  -v  Be"] [] false None =
    Some (PoLocals [ {| o_flags := "-v"; o_description := "Be" |} ]
            true (Some 0%nat) false) ∧
  options_break "  Options: more" = false ∧
  strip "  Options: more" = "Options: more" ∧
  startswith (strip "  Options: more") "-" = false ∧
  parse_options (["Options:"; "  -v  Be"] ++ ["  Options: more"]) =
    Some [ {| o_flags := "-v"; o_description := "Be" |} ] ∧
  parse_options (["Options:"; "  -v  Be"] ++ ["  Options: more"]) ≠
    Some [ {| o_flags := "-v"; o_description := "Be Options: more" |} ].
Proof.
  repeat split; try (vm_compute; reflexivity). vm_compute. discriminate.
Qed.

(** C7.  The parsers never fail: [parse_options], the only one that indexes
    a list without a guard, returns a list for every sequence of lines, and
    the other three are total functions.  On the empty sequence every facet
    is the empty default; without a line that starts with "Usage: " the usage
    is empty; without a line whose trimmed content starts with "Options:" the
    list of options is empty. *)
Theorem parsers_total_with_defaults :
  (∀ lines, ∃ options, parse_options lines = Some options) ∧
  (parse_usage [] = "" ∧ parse_description [] = "" ∧
   parse_options [] = Some [] ∧ parse_sub_commands [] = []) ∧
  (∀ lines, Forall (λ line, startswith line "Usage: " = false) lines →
            parse_usage lines = "") ∧
  (∀ lines, Forall (λ line, startswith (strip line) "Options:" = false) lines →
            parse_options lines = Some []).
Proof.
  split; [|split; [|split]].
  - intros lines. apply parse_options_total.
  - repeat split.
  - induction 1 as [|line lines Hline _ IH]; [done|].
    cbn [parse_usage]. by rewrite Hline.
  - intros lines Hall. unfold parse_options.
    assert (∀ current_option,
              parse_options_loop lines [] false current_option =
              Some (PoLocals [] false current_option false)) as ->; [|done].
    induction Hall as [|line lines Hline _ IH]; intros current_option; [done|].
    cbn [parse_options_loop]. by rewrite Hline.
Qed.

Lemma parsers_total_with_defaults_witness :
  parse_usage ["Does a thing."; "  -v  Be verbose."] = "" ∧
  parse_options ["Usage: tool"; "  -v  Be verbose."] = Some [].
Proof.
  destruct parsers_total_with_defaults as (_ & _ & Husage & Hoptions).
  split.
  - apply Husage. repeat constructor.
  - apply Hoptions. repeat constructor.
Defined.



(** C10.  When the external call succeeds with an output that is empty or
    all whitespace, [get_help_output] returns the empty text and the node is
    treated as after a failed call: [entries] is left as it is, no sub-task
    is created, and the step of the event loop is the step a failed call
    gives. *)
Theorem blank_output_is_like_failure (stdout : string) :
  whitespace_only stdout = true →
  get_help_output (Decoded stdout) = "" ∧
  (∀ command_path entries,
     process_help_text command_path (get_help_output (Decoded stdout)) entries =
     Some (entries, [])) ∧
  (∀ st i r, failed r →
     step st (Return i (Decoded stdout)) = step st (Return i r)).
Proof.
  intros Hws.
  assert (get_help_output (Decoded stdout) = "") as Hempty.
  { by apply strip_whitespace_only. }
  split; [done|]. split.
  - intros. by rewrite Hempty.
  - intros st i r Hr.
    assert (get_help_output r = "") as Hr' by (by destruct r).
    unfold step. by rewrite Hempty, Hr'.
Qed.

Lemma blank_output_is_like_failure_witness :
  whitespace_only "  
 " = true ∧
  process_help_text ["a"] (get_help_output (Decoded "  
 ")) [] = Some ([], []).
Proof.
  split; [reflexivity|].
  destruct (blank_output_is_like_failure "  
 " eq_refl) as (_ & Hnode & _).
  apply Hnode.
Defined.

(** C9.  Along every schedule from the start of [main] the calls of
    [get_help_output] that have not returned are at most [CONCURRENCY_LIMIT],
    which is 10: the permits taken from the semaphore are exactly the ones
    those calls hold.  A call takes its permit in the step that starts it,
    and the permit is back in the step in which the call returns, the same
    step that parses the text, adds the entries and creates the sub-tasks. *)
Theorem in_flight_bounded_by_permits :
  CONCURRENCY_LIMIT = 10%nat ∧
  (∀ evs st,
     run main_state evs = Some st →
     (in_flight st ≤ CONCURRENCY_LIMIT)%nat ∧
     (sem_value st + in_flight st = CONCURRENCY_LIMIT)%nat) ∧
  (∀ st i st',
     step st (Acquire i) = Some st' →
     sem_value st = S (sem_value st') ∧ in_flight st' = S (in_flight st)) ∧
  (∀ st i r st',
     step st (Return i r) = Some st' →
     sem_value st' = S (sem_value st) ∧ in_flight st = S (in_flight st')).
Proof.
  split; [reflexivity|]. split; [|split].
  - intros evs st Hrun.
    pose proof (run_permits_accounted _ _ _ Hrun main_state_permits_accounted) as H.
    unfold permits_accounted in H. split; [lia | done].
  - intros st i st'. unfold step, in_flight.
    destruct (aborted st); [done|].
    destruct (tasks st !! i) as [[p []]|] eqn:Hi; try done.
    destruct (sem_value st) as [|v]; [done|]. intros [= <-]. cbn [sem_value tasks].
    pose proof (in_flight_insert _ _ _ (Task p InFlight) Hi) as H.
    cbn in H. split; [done | lia].
  - intros st i r st'. unfold step, in_flight.
    destruct (aborted st); [done|].
    destruct (tasks st !! i) as [[p []]|] eqn:Hi; try done.
    pose proof (in_flight_insert _ _ _ (Task p Processed) Hi) as H. cbn in H.
    destruct (process_help_text p (get_help_output r) (entries st))
      as [[entries' sub_paths]|]; intros [= <-]; cbn [sem_value tasks].
    + rewrite List.filter_app, in_flight_sub_tasks, app_nil_r. split; [done | lia].
    + split; [done | lia].
Qed.

Lemma in_flight_bounded_by_permits_witness :
  run main_state
    [Acquire 0; Return 0 (Decoded root_help); Acquire 1; Acquire 2] =
  Some {| sem_value := 8;
          tasks := [Task [] Processed; Task ["a"] InFlight; Task ["b"] InFlight];
          entries := [ {| e_command := "verdi -v / --verbose";
                          e_usage := "verdi [OPTIONS] COMMAND";
                          e_description := "Be verbose." |} ];
          aborted := false |} ∧
  (2 ≤ CONCURRENCY_LIMIT)%nat.
Proof.
  assert (run main_state
            [Acquire 0; Return 0 (Decoded root_help); Acquire 1; Acquire 2] =
          Some {| sem_value := 8;
                  tasks := [Task [] Processed; Task ["a"] InFlight;
                            Task ["b"] InFlight];
                  entries := [ {| e_command := "verdi -v / --verbose";
                                  e_usage := "verdi [OPTIONS] COMMAND";
                                  e_description := "Be verbose." |} ];
                  aborted := false |}) as Hrun by (vm_compute; reflexivity).
  split; [exact Hrun|].
  destruct in_flight_bounded_by_permits as (_ & Hbound & _).
  exact (proj1 (Hbound _ _ Hrun)).
Defined.

(** C8.  Along every schedule from the start of [main], [entries] is the
    concatenation, over the completed calls in the order of completion, of
    the entries of the options of the node followed by its leaf entry if it
    has one.  So for every completed node with a leaf entry, each entry of
    its options stands in [entries] at an index below the index of that leaf
    entry.  Nothing is said on the order between different nodes. *)
Theorem option_entries_precede_leaf (evs : list event) (st : state) :
  run main_state evs = Some st →
  let nodes := returned main_state evs in
  entries st = flat_map node_entries nodes ∧
  ∀ k command_path help_text i e leaf,
    nodes !! k = Some (command_path, help_text) →
    node_option_entries command_path help_text !! i = Some e →
    node_leaf_entry command_path help_text = [leaf] →
    let start := List.length (flat_map node_entries (take k nodes)) in
    let leaf_index :=
      (start + List.length (node_option_entries command_path help_text))%nat in
    entries st !! (start + i)%nat = Some e ∧
    entries st !! leaf_index = Some leaf ∧
    (start + i < leaf_index)%nat.
Proof.
  intros Hrun nodes.
  assert (entries st = flat_map node_entries nodes) as Hentries.
  { by rewrite (run_entries _ _ _ Hrun). }
  split; [done|].
  intros k command_path help_text i e leaf Hk He Hleaf start leaf_index.
  pose proof (lookup_lt_Some _ _ _ He) as Hi.
  assert (node_entries (command_path, help_text) =
          node_option_entries command_path help_text ++ [leaf]) as Hnode.
  { unfold node_entries. cbn [fst snd]. by rewrite Hleaf. }
  rewrite Hentries. subst start leaf_index. split; [|split].
  - rewrite (flat_map_block _ _ _ _ _ Hk).
    + rewrite Hnode. by rewrite lookup_app_l.
    + rewrite Hnode, length_app. lia.
  - rewrite (flat_map_block _ _ _ _ _ Hk).
    + rewrite Hnode. by rewrite list_lookup_middle.
    + rewrite Hnode, length_app. simpl. lia.
  - lia.
Qed.

Lemma option_entries_precede_leaf_witness :
  ∃ st,
    run main_state
      [Acquire 0; Return 0 (Decoded root_help); Acquire 2; Acquire 1;
       Return 2 (Decoded leaf_help); Return 1 SpawnFailure] = Some st ∧
    entries st !! 1%nat =
      Some {| e_command := "verdi b -n / --dry-run";
              e_usage := "verdi b [OPTIONS]";
              e_description := "Second. Do nothing." |} ∧
    entries st !! 2%nat =
      Some {| e_command := "verdi b";
              e_usage := "verdi b [OPTIONS]";
              e_description := "Second." |}.
Proof.
  destruct (run main_state
              [Acquire 0; Return 0 (Decoded root_help); Acquire 2; Acquire 1;
               Return 2 (Decoded leaf_help); Return 1 SpawnFailure])
    as [st|] eqn:Hrun; [|vm_compute in Hrun; discriminate Hrun].
  exists st. split; [reflexivity|].
  destruct (option_entries_precede_leaf _ _ Hrun) as [_ Hpos].
  destruct (Hpos 1%nat ["b"] leaf_help 0%nat
              {| e_command := "verdi b -n / --dry-run";
                 e_usage := "verdi b [OPTIONS]";
                 e_description := "Second. Do nothing." |}
              {| e_command := "verdi b";
                 e_usage := "verdi b [OPTIONS]";
                 e_description := "Second." |})
    as (He & Hleaf & _); [vm_compute; reflexivity..|].
  split; [exact He | exact Hleaf].
Defined.

(** ** Further properties of the parser *)

Section more_parser_facts.

Lemma startswith_nil c pre : startswith "" (String c pre) = false.
Proof. reflexivity. Qed.

Lemma startswith_cons a pre b s :
  startswith (String b s) (String a pre) =
  if Ascii.eqb a b then startswith s pre else false.
Proof. reflexivity. Qed.

Lemma whitespace_only_not_startswith line c pre :
  whitespace_only line = true → isspace c = false →
  startswith line (String c pre) = false.
Proof.
  destruct line as [|b line]; [done|].
  cbn [whitespace_only]. intros [Hb _]%andb_true_iff Hc.
  rewrite startswith_cons. destruct (Ascii.eqb c b) eqn:E; [|done].
  apply Ascii.eqb_eq in E. congruence.
Qed.

Lemma options_break_blank line : strip line = "" → options_break line = false.
Proof. unfold options_break. by intros ->. Qed.

Lemma commands_break_blank line : strip line = "" → commands_break line = false.
Proof. unfold commands_break. by intros ->. Qed.

Lemma parse_usage_stripped lines : stripped (parse_usage lines).
Proof.
  induction lines as [|line lines IH]; [done|]. cbn [parse_usage].
  destruct (startswith line "Usage: "); [apply strip_stripped | done].
Qed.

Lemma parse_usage_skip pre : ∀ rest,
  Forall (λ l, startswith l "Usage: " = false) pre →
  parse_usage (pre ++ rest) = parse_usage rest.
Proof.
  intros rest. induction 1 as [|line pre Hline _ IH]; [done|].
  cbn [app parse_usage]. by rewrite Hline.
Qed.

Lemma parse_description_loop_skip pre line rest : ∀ description,
  startswith (strip line) "Options:" = false →
  startswith (strip line) "Commands:" = false →
  nonempty (strip line) && negb (startswith line "Usage: ") = false →
  parse_description_loop (pre ++ line :: rest) description =
  parse_description_loop (pre ++ rest) description.
Proof.
  intros description Ho Hc Hskip. revert description.
  induction pre as [|l pre IH]; intros description; cbn [app parse_description_loop].
  - by rewrite Ho, Hc, Hskip.
  - destruct (startswith (strip l) "Options:" || startswith (strip l) "Commands:");
      [done|].
    destruct (nonempty (strip l) && negb (startswith l "Usage: ")); apply IH.
Qed.

Lemma parse_description_loop_marker pre m rest : ∀ description,
  startswith (strip m) "Options:" || startswith (strip m) "Commands:" = true →
  parse_description_loop (pre ++ m :: rest) description =
  parse_description_loop pre description.
Proof.
  intros description Hm. revert description.
  induction pre as [|l pre IH]; intros description; cbn [app parse_description_loop].
  - by rewrite Hm.
  - destruct (startswith (strip l) "Options:" || startswith (strip l) "Commands:");
      [done|].
    destruct (nonempty (strip l) && negb (startswith l "Usage: ")); apply IH.
Qed.

Lemma parse_options_loop_blank line rest options in_options current_option :
  strip line = "" →
  parse_options_loop (line :: rest) options in_options current_option =
  parse_options_loop rest options in_options current_option.
Proof.
  intros Hb. cbn [parse_options_loop].
  rewrite (options_break_blank _ Hb), Hb, !startswith_nil. cbn [nonempty].
  by destruct in_options, current_option.
Qed.

Lemma parse_options_loop_skip pre line rest :
  (∀ options in_options current_option,
     parse_options_loop (line :: rest) options in_options current_option =
     parse_options_loop rest options in_options current_option) →
  ∀ options in_options current_option,
    parse_options_loop (pre ++ line :: rest) options in_options current_option =
    parse_options_loop (pre ++ rest) options in_options current_option.
Proof.
  intros Hskip options in_options current_option.
  rewrite !parse_options_loop_app.
  destruct (parse_options_loop pre options in_options current_option) as [st|];
    [|done].
  cbn [mbind option_bind]. destruct (po_break st); [done | apply Hskip].
Qed.

Lemma parse_sub_commands_loop_blank pre line rest : ∀ sub_commands in_commands,
  strip line = "" →
  parse_sub_commands_loop (pre ++ line :: rest) sub_commands in_commands =
  parse_sub_commands_loop (pre ++ rest) sub_commands in_commands.
Proof.
  intros sub_commands in_commands Hb. revert sub_commands in_commands.
  induction pre as [|l pre IH]; intros sub_commands in_commands;
    cbn [app parse_sub_commands_loop].
  - rewrite (commands_break_blank _ Hb), Hb, !startswith_nil. cbn [nonempty].
    by destruct in_commands.
  - destruct (startswith (strip l) "Commands:"); [apply IH|].
    destruct in_commands; [|apply IH].
    destruct (commands_break l); [done|].
    destruct (nonempty (strip l)); [|apply IH].
    destruct (re_split_ws2 (strip l)); apply IH.
Qed.

Lemma parse_options_loop_closed pre : ∀ current_option,
  Forall (λ l, startswith (strip l) "Options:" = false) pre →
  parse_options_loop pre [] false current_option =
  Some (PoLocals [] false current_option false).
Proof.
  intros current_option Hall. revert current_option.
  induction Hall as [|line pre Hline _ IH]; intros current_option; [done|].
  cbn [parse_options_loop]. by rewrite Hline.
Qed.

Lemma parse_sub_commands_loop_closed pre rest : ∀ sub_commands,
  Forall (λ l, startswith (strip l) "Commands:" = false) pre →
  parse_sub_commands_loop (pre ++ rest) sub_commands false =
  parse_sub_commands_loop rest sub_commands false.
Proof.
  intros sub_commands Hall. revert sub_commands.
  induction Hall as [|line pre Hline _ IH]; intros sub_commands; [done|].
  cbn [app parse_sub_commands_loop]. by rewrite Hline.
Qed.

End more_parser_facts.

Section well_formed_facts.

Lemma re_search_ws2_nil : re_search_ws2 "" = None.
Proof. reflexivity. Qed.

Lemma re_search_ws2_cons c s :
  re_search_ws2 (String c s) =
  if ws_run_here (String c s) then Some (EmptyString, lstrip (String c s))
  else match re_search_ws2 s with
       | Some (before, after) => Some (String c before, after)
       | None => None
       end.
Proof. reflexivity. Qed.

Lemma re_search_ws2_head s d x after :
  re_search_ws2 s = Some (String d x, after) → ∃ s', s = String d s'.
Proof.
  destruct s as [|c s]; [done|]. rewrite re_search_ws2_cons.
  destruct (ws_run_here (String c s)); [done|].
  destruct (re_search_ws2 s) as [[before after']|]; [|done].
  intros [= -> _ _]. eauto.
Qed.

Lemma re_search_ws2_tail c s :
  re_search_ws2 (String c s) = None →
  ws_run_here (String c s) = false ∧ re_search_ws2 s = None.
Proof.
  rewrite re_search_ws2_cons. destruct (ws_run_here (String c s)); [done|].
  by destruct (re_search_ws2 s) as [[? ?]|].
Qed.

Lemma ws_run_here_head c d s s' :
  ws_run_here (String c (String d s)) = ws_run_here (String c (String d s')).
Proof. reflexivity. Qed.

(** The text before the first run of whitespace holds no such run. *)
Lemma re_search_ws2_before s : ∀ before after,
  re_search_ws2 s = Some (before, after) → re_search_ws2 before = None.
Proof.
  induction s as [|c s IH]; intros before after; [done|].
  rewrite re_search_ws2_cons.
  destruct (ws_run_here (String c s)) eqn:Hrun; [by intros [= <- _]|].
  destruct (re_search_ws2 s) as [[before' after']|] eqn:Hs; [|done].
  intros [= <- _]. rewrite re_search_ws2_cons, (IH _ _ eq_refl).
  destruct before' as [|d x]; [done|].
  destruct (re_search_ws2_head _ _ _ _ Hs) as [s' ->].
  by rewrite (ws_run_here_head c d x s'), Hrun.
Qed.

Lemma re_search_ws2_lstrip s :
  re_search_ws2 s = None → re_search_ws2 (lstrip s) = None.
Proof.
  induction s as [|c s IH]; [done|]. intros Hs. cbn [lstrip].
  destruct (isspace c); [|done].
  apply IH. by apply re_search_ws2_tail in Hs as [_ ?].
Qed.

Lemma rstrip_head s a r : rstrip s = String a r → ∃ s', s = String a s'.
Proof.
  destruct s as [|c s]; [done|]. cbn [rstrip].
  destruct (rstrip s); [destruct (isspace c)|]; intros [= -> _]; eauto.
Qed.

Lemma re_search_ws2_rstrip s :
  re_search_ws2 s = None → re_search_ws2 (rstrip s) = None.
Proof.
  induction s as [|c s IH]; [done|].
  intros [Hrun Hs]%re_search_ws2_tail. specialize (IH Hs). cbn [rstrip].
  destruct (rstrip s) as [|a r] eqn:Hr.
  - by destruct (isspace c).
  - rewrite re_search_ws2_cons, IH.
    destruct (rstrip_head _ _ _ Hr) as [s' ->].
    by rewrite (ws_run_here_head c a r s'), Hrun.
Qed.

Lemma re_search_ws2_strip s :
  re_search_ws2 s = None → re_search_ws2 (strip s) = None.
Proof. intros Hs. by apply re_search_ws2_rstrip, re_search_ws2_lstrip. Qed.

(** The first part of the split, trimmed, cannot be split again. *)
Lemma re_split_ws2_first_unsplit s part0 :
  re_split_ws2 s !! 0%nat = Some part0 → re_search_ws2 (strip part0) = None.
Proof.
  unfold re_split_ws2.
  destruct (re_search_ws2 s) as [[before after]|] eqn:Hs; intros [= <-];
    apply re_search_ws2_strip; [by eapply re_search_ws2_before | done].
Qed.

Lemma strip_head s c t : strip s = String c t → isspace c = false.
Proof.
  intros Hs. destruct (strip_stripped s) as [Hl _]. rewrite Hs in Hl.
  by eapply lstrip_head.
Qed.

Lemma strip_cons_nonspace c t :
  isspace c = false → ∃ r, strip (String c t) = String c r.
Proof.
  intros Hc. unfold strip. cbn [lstrip]. rewrite Hc.
  by apply rstrip_cons_nonspace.
Qed.

Lemma re_split_ws2_first_nonspace c t part0 :
  isspace c = false →
  re_split_ws2 (String c t) !! 0%nat = Some part0 → ∃ x, part0 = String c x.
Proof.
  intros Hc. unfold re_split_ws2. rewrite re_search_ws2_nonspace by done.
  destruct (re_search_ws2 t) as [[before after]|]; intros [= <-]; eauto.
Qed.

Lemma parse_options_loop_Forall (P : cli_option → Prop) :
  (∀ line part0,
     startswith (strip line) "-" = true →
     re_split_ws2 (strip line) !! 0%nat = Some part0 →
     P {| o_flags := strip part0;
          o_description := match re_split_ws2 (strip line) !! 1%nat with
                           | Some part1 => strip part1
                           | None => ""
                           end |}) →
  (∀ line o, nonempty (strip line) = true → P o →
             P (extend_description (strip line) o)) →
  ∀ lines options in_options current_option st,
    parse_options_loop lines options in_options current_option = Some st →
    Forall P options → Forall P (po_options st).
Proof.
  intros Hnew Hext.
  induction lines as [|line lines IH]; intros options in_options current_option st.
  - by intros [= <-].
  - cbn [parse_options_loop].
    destruct (startswith (strip line) "Options:"); [apply IH|].
    destruct in_options; [|apply IH].
    destruct (options_break line); [by intros [= <-]|].
    destruct (startswith (strip line) "-") eqn:Hd.
    + destruct (re_split_ws2 (strip line) !! 0%nat) as [part0|] eqn:Hp;
        [|discriminate].
      cbn [mbind option_bind]. intros Hst Hall. eapply IH; [exact Hst|].
      apply Forall_app. split; [done|]. constructor; [|done]. by apply Hnew.
    + destruct current_option as [i|];
        [destruct (nonempty (strip line)) eqn:Hn|]; try apply IH.
      intros Hst Hall. eapply IH; [exact Hst|].
      apply Forall_alter; [done|]. intros o _. by apply Hext.
Qed.

Lemma parse_sub_commands_loop_Forall (P : string → Prop) :
  (∀ line part0 parts,
     nonempty (strip line) = true →
     re_split_ws2 (strip line) = part0 :: parts → P (strip part0)) →
  ∀ lines sub_commands in_commands,
    Forall P sub_commands →
    Forall P (parse_sub_commands_loop lines sub_commands in_commands).
Proof.
  intros Hnew.
  induction lines as [|line lines IH]; intros sub_commands in_commands Hall;
    [done|].
  cbn [parse_sub_commands_loop].
  destruct (startswith (strip line) "Commands:"); [by apply IH|].
  destruct in_commands; [|by apply IH].
  destruct (commands_break line); [done|].
  destruct (nonempty (strip line)) eqn:Hn; [|by apply IH].
  destruct (re_split_ws2 (strip line)) as [|part0 parts] eqn:Hp; [by apply IH|].
  apply IH, Forall_app. split; [done|]. constructor; [|done]. by eapply Hnew.
Qed.

Lemma sub_command_name_well_formed line part0 parts :
  nonempty (strip line) = true →
  re_split_ws2 (strip line) = part0 :: parts →
  strip part0 ≠ "" ∧ strip (strip part0) = strip part0 ∧
  re_search_ws2 (strip part0) = None.
Proof.
  intros Hn Hp.
  assert (re_split_ws2 (strip line) !! 0%nat = Some part0) as Hp0 by (by rewrite Hp).
  split; [|split].
  - destruct (strip line) as [|c t] eqn:Hs; [done|].
    pose proof (strip_head _ _ _ Hs) as Hc.
    destruct (re_split_ws2_first_nonspace _ _ _ Hc Hp0) as [x ->].
    by destruct (strip_cons_nonspace c x Hc) as [r ->].
  - apply stripped_strip, strip_stripped.
  - by eapply re_split_ws2_first_unsplit.
Qed.

End well_formed_facts.

(** X1.  [parse_usage] returns the text after "Usage: " of the first line
    that starts with it, trimmed; the lines after that one are not looked
    at. *)
Theorem parse_usage_first_usage_line pre tail rest :
  Forall (λ l, startswith l "Usage: " = false) pre →
  parse_usage (pre ++ ("Usage: " +:+ tail) :: rest) = strip tail.
Proof.
  intros Hpre. rewrite parse_usage_skip by done. cbn [parse_usage].
  assert (startswith ("Usage: " +:+ tail) "Usage: " = true) as -> by reflexivity.
  assert (slice_from (String.length "Usage: ") ("Usage: " +:+ tail) = tail) as ->
    by reflexivity.
  done.
Qed.

Lemma parse_usage_first_usage_line_witness :
  parse_usage ["Help"; " Usage: no"; "Usage:   verdi run  "; "Usage: other"] =
    "verdi run".
Proof.
  apply (parse_usage_first_usage_line ["Help"; " Usage: no"] "  verdi run  "
           ["Usage: other"]).
  repeat constructor.
Defined.

(** X2.  The usage and the description that the parser returns never begin
    or end with whitespace: trimming them again changes nothing. *)
Theorem usage_and_description_are_trimmed lines :
  strip (parse_usage lines) = parse_usage lines ∧
  strip (parse_description lines) = parse_description lines.
Proof.
  split; [apply stripped_strip, parse_usage_stripped |
          apply parse_description_stripped].
Qed.

(** X3.  [parse_description] stops at the first line whose trimmed content
    starts with "Options:" or "Commands:": the description is that of the
    lines before it, whatever follows. *)
Theorem parse_description_stops_at_marker pre m rest :
  startswith (strip m) "Options:" = true ∨ startswith (strip m) "Commands:" = true →
  parse_description (pre ++ m :: rest) = parse_description pre.
Proof.
  intros Hm. unfold parse_description.
  rewrite parse_description_loop_marker; [done|].
  destruct Hm as [->| ->]; by rewrite ?orb_true_r.
Qed.

Lemma parse_description_stops_at_marker_witness :
  parse_description ["Does a thing."; "  Commands: here"; "More text."] =
    "Does a thing.".
Proof.
  transitivity (parse_description ["Does a thing."]); [|reflexivity].
  apply (parse_description_stops_at_marker ["Does a thing."] "  Commands: here"
           ["More text."]).
  right. reflexivity.
Defined.

(** X4.  A line that is empty or all whitespace changes no facet, wherever
    it stands: each of the four parsers returns what it returns without
    that line. *)
Theorem blank_lines_are_ignored pre blank rest :
  whitespace_only blank = true →
  parse_usage (pre ++ blank :: rest) = parse_usage (pre ++ rest) ∧
  parse_description (pre ++ blank :: rest) = parse_description (pre ++ rest) ∧
  parse_options (pre ++ blank :: rest) = parse_options (pre ++ rest) ∧
  parse_sub_commands (pre ++ blank :: rest) = parse_sub_commands (pre ++ rest).
Proof.
  intros Hws. pose proof (strip_whitespace_only _ Hws) as Hb.
  split; [|split; [|split]].
  - induction pre as [|l pre IH]; cbn [app parse_usage].
    + by rewrite whitespace_only_not_startswith.
    + by rewrite IH.
  - unfold parse_description. rewrite parse_description_loop_skip; [done|..].
    + by rewrite Hb.
    + by rewrite Hb.
    + by rewrite Hb.
  - unfold parse_options. rewrite parse_options_loop_skip; [done|].
    intros. by apply parse_options_loop_blank.
  - unfold parse_sub_commands. by rewrite parse_sub_commands_loop_blank.
Qed.

Lemma blank_lines_are_ignored_witness :
  parse_options ["Options:"; "  -v  Be verbose."; "   "; "      Very verbose."] =
  parse_options ["Options:"; "  -v  Be verbose."; "      Very verbose."].
Proof.
  destruct (blank_lines_are_ignored ["Options:"; "  -v  Be verbose."] "   "
              ["      Very verbose."] eq_refl) as (_ & _ & Hopts & _).
  exact Hopts.
Defined.

(** X5.  A line that starts with "Usage: " never reaches the description,
    wherever it stands. *)
Theorem usage_line_is_not_described pre tail rest :
  parse_description (pre ++ ("Usage: " +:+ tail) :: rest) =
  parse_description (pre ++ rest).
Proof.
  unfold parse_description.
  assert (∃ r, strip ("Usage: " +:+ tail) = String "U" r) as [r Hr].
  { by apply (strip_cons_nonspace "U"). }
  rewrite parse_description_loop_skip; [done|..].
  - by rewrite Hr.
  - by rewrite Hr.
  - assert (startswith ("Usage: " +:+ tail) "Usage: " = true) as ->
      by reflexivity.
    by rewrite andb_false_r.
Qed.

(** X6.  Every option that [parse_options] returns is well formed: its flags
    start with "-", are trimmed and hold no run of two or more whitespace
    characters, and its description does not end with whitespace. *)
Theorem parsed_options_are_well_formed lines options :
  parse_options lines = Some options →
  Forall (λ o, startswith (o_flags o) "-" = true ∧
               strip (o_flags o) = o_flags o ∧
               re_search_ws2 (o_flags o) = None ∧
               rstrip (o_description o) = o_description o) options.
Proof.
  unfold parse_options.
  destruct (parse_options_loop lines [] false None) as [st|] eqn:Hst; [|done].
  intros [= <-].
  refine (parse_options_loop_Forall _ _ _ lines [] false None st Hst _);
    [| |done].
  - intros line part0 Hd Hp. cbn [o_flags o_description].
    split; [|split; [|split]].
    + destruct (startswith_dash_inv _ Hd) as [t Ht]. rewrite Ht in Hp.
      destruct (re_split_ws2_dash _ _ Hp) as [x ->].
      by destruct (strip_dash x) as [r ->].
    + apply stripped_strip, strip_stripped.
    + by eapply re_split_ws2_first_unsplit.
    + destruct (re_split_ws2 (strip line) !! 1%nat); [apply rstrip_idemp | done].
  - intros line [flags desc] Hn (Hd & Hs & Hr & Hdesc).
    cbn [extend_description o_flags o_description] in *.
    split; [done|]. split; [done|]. split; [done|].
    rewrite <- string_app_assoc. apply rstrip_app_r.
    + by destruct (strip line).
    + apply rstrip_idemp.
Qed.

Lemma parsed_options_are_well_formed_witness :
  ∃ options,
    parse_options example_lines = Some options ∧
    List.length options = 2%nat ∧
    Forall (λ o, startswith (o_flags o) "-" = true ∧
                 strip (o_flags o) = o_flags o ∧
                 re_search_ws2 (o_flags o) = None ∧
                 rstrip (o_description o) = o_description o) options.
Proof.
  eexists. split; [vm_compute; reflexivity|]. split; [reflexivity|].
  apply (parsed_options_are_well_formed example_lines).
  vm_compute. reflexivity.
Defined.

(** X7.  Nothing before the first header of a section reaches that section:
    without a line whose trimmed content starts with "Options:" among the
    first lines, [parse_options] returns what it returns for the remaining
    lines, and the same holds for [parse_sub_commands] and "Commands:". *)
Theorem text_before_header_is_ignored pre rest :
  (Forall (λ l, startswith (strip l) "Options:" = false) pre →
   parse_options (pre ++ rest) = parse_options rest) ∧
  (Forall (λ l, startswith (strip l) "Commands:" = false) pre →
   parse_sub_commands (pre ++ rest) = parse_sub_commands rest).
Proof.
  split; intros Hpre.
  - unfold parse_options.
    by rewrite parse_options_loop_app, parse_options_loop_closed.
  - unfold parse_sub_commands. by apply parse_sub_commands_loop_closed.
Qed.

Lemma text_before_header_is_ignored_witness :
  parse_options ["  -x  not an option"; "Options:"; "  -v  Be verbose."] =
    parse_options ["Options:"; "  -v  Be verbose."] ∧
  parse_sub_commands ["  foo  not a command"; "Commands:"; "  bar  Does bar."] =
    parse_sub_commands ["Commands:"; "  bar  Does bar."].
Proof.
  split.
  - apply (text_before_header_is_ignored ["  -x  not an option"]
             ["Options:"; "  -v  Be verbose."]).
    repeat constructor.
  - apply (text_before_header_is_ignored ["  foo  not a command"]
             ["Commands:"; "  bar  Does bar."]).
    repeat constructor.
Defined.

(** X8.  Every name that [parse_sub_commands] returns is non-empty, trimmed
    and holds no run of two or more whitespace characters. *)
Theorem sub_command_names_are_well_formed lines :
  Forall (λ name, name ≠ "" ∧ strip name = name ∧ re_search_ws2 name = None)
    (parse_sub_commands lines).
Proof.
  unfold parse_sub_commands.
  apply parse_sub_commands_loop_Forall; [|done].
  intros line part0 parts. apply sub_command_name_well_formed.
Qed.

(** ** Further properties of the walker *)

Section more_walker_facts.

(** The two ways a step can be taken. *)
Lemma step_inv st ev st' :
  step st ev = Some st' →
  aborted st = false ∧
  ((∃ i p v,
      ev = Acquire i ∧ tasks st !! i = Some (Task p AwaitingPermit) ∧
      sem_value st = S v ∧
      st' = {| sem_value := v;
               tasks := <[i := Task p InFlight]> (tasks st);
               entries := entries st;
               aborted := false |}) ∨
   (∃ i r p,
      ev = Return i r ∧ tasks st !! i = Some (Task p InFlight) ∧
      st' = {| sem_value := S (sem_value st);
               tasks := <[i := Task p Processed]> (tasks st) ++
                        ((λ q, Task q AwaitingPermit) <$>
                           node_sub_paths p (get_help_output r));
               entries := entries st ++
                          node_option_entries p (get_help_output r) ++
                          node_leaf_entry p (get_help_output r);
               aborted := false |})).
Proof.
  unfold step. destruct (aborted st); [done|]. intros Hstep. split; [done|].
  destruct ev as [i|i r]; destruct (tasks st !! i) as [[p []]|] eqn:Hi;
    try done.
  - destruct (sem_value st) as [|v] eqn:Hv; [done|].
    injection Hstep as <-. left. by exists i, p, v.
  - rewrite process_help_text_node in Hstep. injection Hstep as <-.
    right. by exists i, r, p.
Qed.

Lemma run_app evs1 evs2 : ∀ st,
  run st (evs1 ++ evs2) = st1 ← run st evs1; run st1 evs2.
Proof.
  induction evs1 as [|ev evs1 IH]; intros st; [done|].
  cbn [app run]. destruct (step st ev) as [st1|]; [apply IH | done].
Qed.

Lemma step_task_kept st ev st' i p ph :
  step st ev = Some st' →
  tasks st !! i = Some (Task p ph) →
  ∃ ph', tasks st' !! i = Some (Task p ph') ∧ (phase_rank ph ≤ phase_rank ph')%nat.
Proof.
  intros Hstep Hi. pose proof (lookup_lt_Some _ _ _ Hi) as Hlt.
  destruct (step_inv _ _ _ Hstep) as
    [_ [(j & q & v & -> & Hj & _ & ->)|(j & r & q & -> & Hj & ->)]];
    cbn [tasks].
  - destruct (decide (j = i)) as [->|Hne].
    + rewrite Hi in Hj. injection Hj as <- ->.
      rewrite list_lookup_insert_eq by done. exists InFlight. split; [done|].
      cbn. lia.
    + rewrite list_lookup_insert_ne by done. eauto.
  - rewrite lookup_app_l by (by rewrite length_insert).
    destruct (decide (j = i)) as [->|Hne].
    + rewrite Hi in Hj. injection Hj as <- ->.
      rewrite list_lookup_insert_eq by done. exists Processed. split; [done|].
      cbn. lia.
    + rewrite list_lookup_insert_ne by done. eauto.
Qed.

Lemma run_task_kept evs : ∀ st st' i p ph,
  run st evs = Some st' →
  tasks st !! i = Some (Task p ph) →
  ∃ ph', tasks st' !! i = Some (Task p ph') ∧ (phase_rank ph ≤ phase_rank ph')%nat.
Proof.
  induction evs as [|ev evs IH]; intros st st' i p ph; cbn [run].
  - intros [= <-] Hi. eauto.
  - destruct (step st ev) as [st1|] eqn:Hstep; [|done]. cbn [mbind option_bind].
    intros Hrun Hi.
    destruct (step_task_kept _ _ _ _ _ _ Hstep Hi) as (ph1 & Hi1 & Hle1).
    destruct (IH _ _ _ _ _ Hrun Hi1) as (ph' & Hi' & Hle').
    exists ph'. split; [done | lia].
Qed.

Lemma step_event_phase st ev st' :
  step st ev = Some st' →
  ∃ p, tasks st !! (event_key ev).1 =
         Some (Task p (if (event_key ev).2 then InFlight else AwaitingPermit)) ∧
       tasks st' !! (event_key ev).1 =
         Some (Task p (if (event_key ev).2 then Processed else InFlight)).
Proof.
  intros Hstep.
  destruct (step_inv _ _ _ Hstep) as
    [_ [(j & q & v & -> & Hj & _ & ->)|(j & r & q & -> & Hj & ->)]];
    cbn [tasks event_key fst snd]; exists q; (split; [done|]);
    pose proof (lookup_lt_Some _ _ _ Hj) as Hlt.
  - by rewrite list_lookup_insert_eq.
  - rewrite lookup_app_l by (by rewrite length_insert).
    by rewrite list_lookup_insert_eq.
Qed.

(** In a schedule that can be run, an event about task [i] finds the task
    in the phase the event needs, so the phase the task has at the start
    bounds what can still happen to it. *)
Lemma run_event_phase evs : ∀ st st' ev,
  run st evs = Some st' →
  ev ∈ evs →
  ∀ p ph, tasks st !! (event_key ev).1 = Some (Task p ph) →
          (phase_rank ph ≤ if (event_key ev).2 then 1 else 0)%nat.
Proof.
  induction evs as [|ev0 evs IH]; intros st st' ev; cbn [run].
  - intros _ Hin. by apply elem_of_nil in Hin.
  - destruct (step st ev0) as [st1|] eqn:Hstep; [|done]. cbn [mbind option_bind].
    intros Hrun [->|Hin]%elem_of_cons p ph Hi.
    + destruct (step_event_phase _ _ _ Hstep) as (q & Hq & _).
      rewrite Hi in Hq. injection Hq as _ ->. by destruct (event_key ev0).2.
    + destruct (step_task_kept _ _ _ _ _ _ Hstep Hi) as (ph1 & Hi1 & Hle1).
      pose proof (IH _ _ _ Hrun Hin _ _ Hi1). lia.
Qed.

Lemma run_keys_NoDup evs : ∀ st st',
  run st evs = Some st' → NoDup (event_key <$> evs).
Proof.
  induction evs as [|ev evs IH]; intros st st'; cbn [run fmap list_fmap].
  - intros _. constructor.
  - destruct (step st ev) as [st1|] eqn:Hstep; [|done]. cbn [mbind option_bind].
    intros Hrun. constructor; [|by eapply IH].
    intros (ev' & Hkey & Hin)%list_elem_of_fmap.
    destruct (step_event_phase _ _ _ Hstep) as (p & _ & Hp).
    rewrite Hkey in Hp.
    pose proof (run_event_phase _ _ _ _ Hrun Hin _ _ Hp) as Hle.
    rewrite <- Hkey in Hle.
    destruct (event_key ev).2; cbn in Hle; lia.
Qed.

(** A task that is in flight or processed has been given a permit by an
    earlier event, when the run started from [main]. *)
Lemma run_acquired evs : ∀ st i p ph,
  run main_state evs = Some st →
  tasks st !! i = Some (Task p ph) →
  ph ≠ AwaitingPermit →
  Acquire i ∈ evs.
Proof.
  induction evs as [|ev evs IH] using rev_ind; intros st i p ph.
  - intros [= <-]. destruct i as [|i]; [|done]. by intros [= <- <-].
  - rewrite run_app.
    destruct (run main_state evs) as [st0|] eqn:Hrun0; [|done].
    cbn [mbind option_bind run].
    destruct (step st0 ev) as [st1|] eqn:Hstep; [|done]. cbn [mbind option_bind].
    intros [= <-] Hi Hph. apply elem_of_app.
    destruct (step_inv _ _ _ Hstep) as
      [_ [(j & q & v & -> & Hj & _ & ->)|(j & r & q & -> & Hj & ->)]];
      cbn [tasks] in Hi.
    + destruct (decide (j = i)) as [->|Hne].
      * right. apply list_elem_of_singleton. done.
      * rewrite list_lookup_insert_ne in Hi by done. left. by eapply IH.
    + pose proof (lookup_lt_Some _ _ _ Hj) as Hlt.
      destruct (decide (i < List.length (tasks st0))%nat) as [Hin|Hout].
      * rewrite lookup_app_l in Hi by (by rewrite length_insert).
        destruct (decide (j = i)) as [->|Hne].
        -- left. eapply (IH _ _ _ InFlight); [done | exact Hj | done].
        -- rewrite list_lookup_insert_ne in Hi by done. left. by eapply IH.
      * rewrite lookup_app_r in Hi by (rewrite length_insert; lia).
        apply list_lookup_fmap_Some in Hi as (q' & [= _ ->] & _). done.
Qed.

End more_walker_facts.

Section progress_facts.

Lemma in_flight_or_none ts :
  (∃ i p, ts !! i = Some (Task p InFlight)) ∨ List.filter holds_permit ts = [].
Proof.
  induction ts as [|[p ph] ts [(i & q & Hi)|IH]].
  - by right.
  - left. by exists (S i), q.
  - destruct ph; cbn; [by right | left; by exists 0%nat, p | by right].
Qed.

Lemma waiting_task ts :
  forallb (λ t, match t_phase t with
                | Processed => true
                | AwaitingPermit | InFlight => false
                end) ts = false →
  List.filter holds_permit ts = [] →
  ∃ i p, ts !! i = Some (Task p AwaitingPermit).
Proof.
  induction ts as [|[p ph] ts IH]; [done|]. cbn.
  destruct ph; cbn.
  - intros _ _. by exists 0%nat, p.
  - done.
  - intros Hall Hnone. destruct (IH Hall Hnone) as (i & q & Hi).
    by exists (S i), q.
Qed.

Lemma finished_lookup st i t :
  finished st = true → tasks st !! i = Some t → t_phase t = Processed.
Proof.
  unfold finished. generalize (tasks st). intros ts. revert i.
  induction ts as [|a ts IH]; intros i; [done|]. cbn.
  intros [Ha Hts]%andb_true_iff. destruct i as [|i]; cbn.
  - intros [= <-]. by destruct (t_phase a).
  - by apply IH.
Qed.

Lemma finished_none_in_flight st : finished st = true → in_flight st = 0%nat.
Proof.
  unfold finished, in_flight. generalize (tasks st). intros ts.
  induction ts as [|[p ph] ts IH]; [done|]. cbn.
  intros [Ha Hts]%andb_true_iff. destruct ph; try done. cbn. by apply IH.
Qed.

Lemma return_enabled st i p r :
  aborted st = false →
  tasks st !! i = Some (Task p InFlight) →
  is_Some (step st (Return i r)).
Proof.
  intros Hab Hi. unfold step. rewrite Hab, Hi.
  by destruct (process_help_text_total p (get_help_output r) (entries st))
    as [[entries' sub_paths] ->].
Qed.

Lemma acquire_enabled st i p v :
  aborted st = false →
  tasks st !! i = Some (Task p AwaitingPermit) →
  sem_value st = S v →
  is_Some (step st (Acquire i)).
Proof. intros Hab Hi Hv. unfold step. by rewrite Hab, Hi, Hv. Qed.

Lemma node_sub_paths_extend command_path help_text :
  Forall (λ q, ∃ sub_cmd, q = command_path ++ [sub_cmd] ∧ sub_cmd ≠ "")
    (node_sub_paths command_path help_text).
Proof.
  unfold node_sub_paths. destruct (nonempty help_text); [|done].
  apply Forall_fmap.
  pose proof (parse_sub_commands_loop_Forall (λ name, name ≠ "")) as Hall.
  unfold parse_sub_commands.
  eapply Forall_impl; [apply Hall|].
  - intros line part0 parts Hn Hp.
    by destruct (sub_command_name_well_formed _ _ _ Hn Hp) as [? _].
  - done.
  - intros sub_cmd Hne. cbn. eauto.
Qed.

Lemma step_paths_nonempty st ev st' :
  step st ev = Some st' →
  Forall (λ t, Forall (λ tok, tok ≠ "") (t_command_path t)) (tasks st) →
  Forall (λ t, Forall (λ tok, tok ≠ "") (t_command_path t)) (tasks st').
Proof.
  intros Hstep Hall.
  destruct (step_inv _ _ _ Hstep) as
    [_ [(j & q & v & -> & Hj & _ & ->)|(j & r & q & -> & Hj & ->)]];
    cbn [tasks].
  - apply Forall_insert; [done|].
    by apply (Forall_lookup_1 _ _ _ _ Hall Hj).
  - pose proof (Forall_lookup_1 _ _ _ _ Hall Hj) as Hq. cbn in Hq.
    apply Forall_app. split; [by apply Forall_insert|].
    apply Forall_fmap.
    eapply Forall_impl; [apply node_sub_paths_extend|].
    intros path (sub_cmd & -> & Hne). cbn.
    apply Forall_app. split; [done|]. by constructor.
Qed.

Lemma run_paths_nonempty evs : ∀ st st',
  run st evs = Some st' →
  Forall (λ t, Forall (λ tok, tok ≠ "") (t_command_path t)) (tasks st) →
  Forall (λ t, Forall (λ tok, tok ≠ "") (t_command_path t)) (tasks st').
Proof.
  induction evs as [|ev evs IH]; intros st st'; cbn [run].
  - by intros [= <-].
  - destruct (step st ev) as [st1|] eqn:Hstep; [|done]. cbn [mbind option_bind].
    intros Hrun Hall. eapply IH; [exact Hrun|]. by eapply step_paths_nonempty.
Qed.

Lemma node_entries_well_formed node :
  Forall (λ e, startswith (e_command e) "verdi " = true ∧
               strip (e_usage e) = e_usage e ∧
               strip (e_description e) = e_description e)
    (node_entries node).
Proof.
  destruct node as [p h]. unfold node_entries. cbn [fst snd].
  apply Forall_app. split.
  - unfold node_option_entries. destruct (nonempty h); [|done].
    destruct (parse_options _) as [options|]; [|done].
    apply Forall_flat_map, Forall_forall. intros o _.
    unfold option_entry. destruct (bool_decide _); [done|].
    constructor; [|done]. cbn [e_command e_usage e_description].
    split; [reflexivity|]. split.
    + apply stripped_strip, parse_usage_stripped.
    + apply stripped_strip, strip_stripped.
  - unfold node_leaf_entry. destruct (nonempty h); [|done].
    destruct (parse_sub_commands _); [|done].
    constructor; [|done]. cbn [e_command e_usage e_description].
    split; [reflexivity|]. split.
    + apply stripped_strip, parse_usage_stripped.
    + apply parse_description_stripped.
Qed.

Lemma step_paths st ev st' :
  step st ev = Some st' →
  ∃ new, t_command_path <$> tasks st' = (t_command_path <$> tasks st) ++ new.
Proof.
  intros Hstep.
  destruct (step_inv _ _ _ Hstep) as
    [_ [(j & q & v & -> & Hj & _ & ->)|(j & r & q & -> & Hj & ->)]];
    cbn [tasks].
  - exists []. rewrite app_nil_r, list_fmap_insert. cbn.
    apply list_insert_id. by rewrite list_lookup_fmap, Hj.
  - eexists. rewrite fmap_app, list_fmap_insert. cbn. f_equal.
    apply list_insert_id. by rewrite list_lookup_fmap, Hj.
Qed.

Lemma run_paths evs : ∀ st st',
  run st evs = Some st' →
  ∃ new, t_command_path <$> tasks st' = (t_command_path <$> tasks st) ++ new.
Proof.
  induction evs as [|ev evs IH]; intros st st'; cbn [run].
  - intros [= <-]. exists []. by rewrite app_nil_r.
  - destruct (step st ev) as [st1|] eqn:Hstep; [|done]. cbn [mbind option_bind].
    intros Hrun. destruct (step_paths _ _ _ Hstep) as [new1 H1].
    destruct (IH _ _ Hrun) as [new2 H2].
    exists (new1 ++ new2). by rewrite H2, H1, app_assoc.
Qed.

End progress_facts.

(** X9.  Along a schedule the shared list [entries] is only ever extended
    at its end, the calls made so far keep their place and their command
    path, new calls are added after them, and no call goes back to an
    earlier phase. *)
Theorem entries_and_tasks_only_grow st evs st' :
  run st evs = Some st' →
  (∃ added, entries st' = entries st ++ added) ∧
  (∃ new, t_command_path <$> tasks st' = (t_command_path <$> tasks st) ++ new) ∧
  (∀ i p ph, tasks st !! i = Some (Task p ph) →
     ∃ ph', tasks st' !! i = Some (Task p ph') ∧
            (phase_rank ph ≤ phase_rank ph')%nat).
Proof.
  intros Hrun. split; [|split].
  - eexists. by apply run_entries.
  - by eapply run_paths.
  - intros i p ph. by eapply run_task_kept.
Qed.

Lemma entries_and_tasks_only_grow_witness :
  ∃ st', run main_state [Acquire 0; Return 0 (Decoded root_help)] = Some st' ∧
         ∃ ph', tasks st' !! 0%nat = Some (Task [] ph') ∧
                (phase_rank AwaitingPermit ≤ phase_rank ph')%nat.
Proof.
  destruct (run main_state [Acquire 0; Return 0 (Decoded root_help)])
    as [st'|] eqn:Hrun; [|vm_compute in Hrun; discriminate Hrun].
  exists st'. split; [reflexivity|].
  destruct (entries_and_tasks_only_grow _ _ _ Hrun) as (_ & _ & Hkept).
  apply (Hkept 0%nat [] AwaitingPermit). reflexivity.
Defined.

(** X10.  Every entry that a run from [main] puts into [entries] has a
    command that starts with "verdi " and a usage and a description that
    neither begin nor end with whitespace. *)
Theorem catalog_entries_are_well_formed evs st :
  run main_state evs = Some st →
  Forall (λ e, startswith (e_command e) "verdi " = true ∧
               strip (e_usage e) = e_usage e ∧
               strip (e_description e) = e_description e)
    (entries st).
Proof.
  intros Hrun. rewrite (run_entries _ _ _ Hrun). cbn [main_state entries app].
  apply Forall_flat_map, Forall_forall. intros node _.
  apply node_entries_well_formed.
Qed.

Lemma catalog_entries_are_well_formed_witness :
  ∃ st, run main_state
          [Acquire 0; Return 0 (Decoded root_help); Acquire 2;
           Return 2 (Decoded leaf_help)] = Some st ∧
        List.length (entries st) = 3%nat ∧
        Forall (λ e, startswith (e_command e) "verdi " = true ∧
                     strip (e_usage e) = e_usage e ∧
                     strip (e_description e) = e_description e) (entries st).
Proof.
  destruct (run main_state
              [Acquire 0; Return 0 (Decoded root_help); Acquire 2;
               Return 2 (Decoded leaf_help)])
    as [st|] eqn:Hrun; [|vm_compute in Hrun; discriminate Hrun].
  exists st. split; [reflexivity|]. split.
  - vm_compute in Hrun. injection Hrun as <-. reflexivity.
  - exact (catalog_entries_are_well_formed _ _ Hrun).
Defined.

(** X11.  A run from [main] never blocks and leaks no permit: while some
    call is not past its own step an event can be taken, a call in flight
    can return whatever the external call comes to, and once every call is
    past its own step all [CONCURRENCY_LIMIT] permits are back and no event
    is left. *)
Theorem run_never_blocks evs st :
  run main_state evs = Some st →
  (finished st = false → ∃ ev st', step st ev = Some st') ∧
  (∀ i p r, tasks st !! i = Some (Task p InFlight) →
            is_Some (step st (Return i r))) ∧
  (finished st = true →
   sem_value st = CONCURRENCY_LIMIT ∧ ∀ ev, step st ev = None).
Proof.
  intros Hrun.
  pose proof (run_not_aborted _ _ _ Hrun eq_refl) as Hab.
  pose proof (run_permits_accounted _ _ _ Hrun main_state_permits_accounted)
    as Hperm. unfold permits_accounted in Hperm.
  split; [|split].
  - intros Hfin.
    destruct (in_flight_or_none (tasks st)) as [(i & p & Hi)|Hnone].
    + destruct (return_enabled st i p SpawnFailure Hab Hi) as [st' Hst'].
      eauto.
    + destruct (waiting_task _ Hfin Hnone) as (i & p & Hi).
      unfold in_flight in Hperm. rewrite Hnone in Hperm. cbn in Hperm.
      destruct (acquire_enabled st i p 9 Hab Hi) as [st' Hst'];
        [unfold CONCURRENCY_LIMIT in Hperm; lia|].
      eauto.
  - intros i p r Hi. by eapply return_enabled.
  - intros Hfin. rewrite (finished_none_in_flight _ Hfin) in Hperm.
    split; [lia|].
    intros ev. unfold step. rewrite Hab.
    destruct ev as [i|i r]; destruct (tasks st !! i) as [[p ph]|] eqn:Hi;
      try done; pose proof (finished_lookup _ _ _ Hfin Hi) as Hph;
      cbn in Hph; by subst ph.
Qed.

Lemma run_never_blocks_witness :
  ∃ st, run main_state
          [Acquire 0; Return 0 (Decoded root_help); Acquire 2; Acquire 1;
           Return 2 (Decoded leaf_help); Return 1 SpawnFailure] = Some st ∧
        finished st = true ∧ sem_value st = CONCURRENCY_LIMIT.
Proof.
  destruct (run main_state
              [Acquire 0; Return 0 (Decoded root_help); Acquire 2; Acquire 1;
               Return 2 (Decoded leaf_help); Return 1 SpawnFailure])
    as [st|] eqn:Hrun; [|vm_compute in Hrun; discriminate Hrun].
  exists st. split; [reflexivity|].
  assert (finished st = true) as Hfin.
  { vm_compute in Hrun. injection Hrun as <-. reflexivity. }
  split; [exact Hfin|].
  destruct (run_never_blocks _ _ Hrun) as (_ & _ & Hend).
  exact (proj1 (Hend Hfin)).
Defined.

(** X12.  In a schedule that can be run no call is given a permit twice and
    no call returns twice; from [main], a call returns only after it has
    been given a permit.  So the external help is fetched once for each
    call and always under a permit. *)
Theorem each_call_fetches_once evs st :
  run main_state evs = Some st →
  NoDup (event_key <$> evs) ∧
  ∀ evs1 i r evs2, evs = evs1 ++ Return i r :: evs2 → Acquire i ∈ evs1.
Proof.
  intros Hrun. split; [by eapply run_keys_NoDup|].
  intros evs1 i r evs2 ->. rewrite run_app in Hrun.
  destruct (run main_state evs1) as [st1|] eqn:Hrun1; [|done].
  cbn [mbind option_bind run] in Hrun.
  destruct (step st1 (Return i r)) as [st2|] eqn:Hstep; [|done].
  destruct (step_event_phase _ _ _ Hstep) as (p & Hp & _).
  cbn [event_key fst snd] in Hp.
  by eapply (run_acquired _ _ _ _ _ Hrun1 Hp).
Qed.

Lemma each_call_fetches_once_witness :
  run main_state [Acquire 0; Return 0 TimedOut; Acquire 0] = None ∧
  ∃ st, run main_state [Acquire 0; Return 0 TimedOut] = Some st ∧
        NoDup (event_key <$> [Acquire 0; Return 0 TimedOut]).
Proof.
  split; [reflexivity|].
  destruct (run main_state [Acquire 0; Return 0 TimedOut])
    as [st|] eqn:Hrun; [|vm_compute in Hrun; discriminate Hrun].
  exists st. split; [reflexivity|].
  exact (proj1 (each_call_fetches_once _ _ Hrun)).
Defined.

(** X13.  No command path that a run from [main] walks holds an empty
    token: every call is for the root or for a path made of non-empty
    sub-command names. *)
Theorem command_paths_hold_no_empty_token evs st :
  run main_state evs = Some st →
  Forall (λ t, Forall (λ tok, tok ≠ "") (t_command_path t)) (tasks st).
Proof.
  intros Hrun. eapply run_paths_nonempty; [exact Hrun|].
  by repeat constructor.
Qed.

Lemma command_paths_hold_no_empty_token_witness :
  ∃ st, run main_state [Acquire 0; Return 0 (Decoded root_help)] = Some st ∧
        t_command_path <$> tasks st = [[]; ["a"]; ["b"]] ∧
        Forall (λ t, Forall (λ tok, tok ≠ "") (t_command_path t)) (tasks st).
Proof.
  destruct (run main_state [Acquire 0; Return 0 (Decoded root_help)])
    as [st|] eqn:Hrun; [|vm_compute in Hrun; discriminate Hrun].
  exists st. split; [reflexivity|]. split.
  - vm_compute in Hrun. injection Hrun as <-. reflexivity.
  - exact (command_paths_hold_no_empty_token _ _ Hrun).
Defined.

(** ** The catalog does not depend on the schedule *)

Section counting.

Variable children : list string → list (list string).
Hypothesis children_extend :
  ∀ p, Forall (λ q, ∃ tok, q = p ++ [tok]) (children p).

Lemma occurrences_app q l1 l2 :
  occurrences q (l1 ++ l2) = (occurrences q l1 + occurrences q l2)%nat.
Proof. apply count_occ_app. Qed.

Lemma occurrences_cons q a l :
  occurrences q (a :: l) =
  ((if decide (a = q) then 1 else 0) + occurrences q l)%nat.
Proof. unfold occurrences. cbn. by destruct (decide (a = q)). Qed.

Lemma occurrences_Permutation l1 l2 :
  l1 ≡ₚ l2 ↔ ∀ q, occurrences q l1 = occurrences q l2.
Proof. apply Permutation_count_occ. Qed.

Lemma occurrences_children_other p q :
  (∀ tok, q ≠ p ++ [tok]) → occurrences q (children p) = 0%nat.
Proof.
  intros Hq. apply count_occ_not_In. intros Hin.
  pose proof (children_extend p) as Hall.
  rewrite List.Forall_forall in Hall.
  destruct (Hall _ Hin) as [tok ->]. by eapply Hq.
Qed.

Lemma occurrences_flat_map_parent l p0 q :
  (∀ p, p ≠ p0 → occurrences q (children p) = 0%nat) →
  occurrences q (flat_map children l) =
  (occurrences p0 l * occurrences q (children p0))%nat.
Proof.
  intros Hother. induction l as [|a l IH]; [done|].
  cbn [flat_map]. rewrite occurrences_app, IH, occurrences_cons.
  destruct (decide (a = p0)) as [->|Hne]; [lia|].
  rewrite (Hother _ Hne). lia.
Qed.

Lemma occurrences_flat_map_root l : occurrences [] (flat_map children l) = 0%nat.
Proof.
  induction l as [|a l IH]; [done|].
  cbn [flat_map]. rewrite occurrences_app, IH.
  rewrite (occurrences_children_other a []); [done|].
  intros tok. apply app_cons_not_nil.
Qed.

(** The tree is determined by its root and the children of each node: two
    lists that both hold the root once and the children of each of their
    elements have the same elements, the same number of times. *)
Lemma closed_lists_agree l1 l2 :
  l1 ≡ₚ [] :: flat_map children l1 →
  l2 ≡ₚ [] :: flat_map children l2 →
  l1 ≡ₚ l2.
Proof.
  intros H1 H2. apply occurrences_Permutation.
  pose proof (proj1 (occurrences_Permutation _ _) H1) as C1.
  pose proof (proj1 (occurrences_Permutation _ _) H2) as C2.
  intros q. induction q as [|tok q IH] using rev_ind.
  - rewrite C1, C2, !occurrences_cons, !occurrences_flat_map_root. done.
  - rewrite C1, C2, !occurrences_cons.
    destruct (decide ([] = q ++ [tok])) as [Heq|_];
      [by apply app_cons_not_nil in Heq|].
    assert (∀ p, p ≠ q → occurrences (q ++ [tok]) (children p) = 0%nat) as Hother.
    { intros p Hne. apply occurrences_children_other.
      intros tok' [? _]%app_inj_tail. done. }
    rewrite !(occurrences_flat_map_parent _ q _ Hother). by rewrite IH.
Qed.

End counting.

Section schedule_facts.

Variable world : list string → invocation.

Lemma processed_paths_app ts1 ts2 :
  processed_paths (ts1 ++ ts2) = processed_paths ts1 ++ processed_paths ts2.
Proof. unfold processed_paths. by rewrite List.filter_app, fmap_app. Qed.

Lemma processed_paths_new (sub_paths : list (list string)) :
  processed_paths ((λ q, Task q AwaitingPermit) <$> sub_paths) = [].
Proof. induction sub_paths; done. Qed.

Lemma processed_paths_start ts : ∀ i p,
  ts !! i = Some (Task p AwaitingPermit) →
  processed_paths (<[i := Task p InFlight]> ts) = processed_paths ts.
Proof.
  induction ts as [|a ts IH]; intros [|i] p; try done.
  - by intros [= ->].
  - intros Hi. change (<[S i := Task p InFlight]> (a :: ts))
      with (a :: <[i := Task p InFlight]> ts).
    change (processed_paths (a :: ?l)) with (processed_paths ([a] ++ l)).
    by rewrite !processed_paths_app, IH.
Qed.

Lemma processed_paths_finish ts : ∀ i p,
  ts !! i = Some (Task p InFlight) →
  processed_paths (<[i := Task p Processed]> ts) ≡ₚ p :: processed_paths ts.
Proof.
  induction ts as [|a ts IH]; intros [|i] p; try done.
  - by intros [= ->].
  - intros Hi. change (<[S i := Task p Processed]> (a :: ts))
      with (a :: <[i := Task p Processed]> ts).
    change (processed_paths (a :: ?l)) with (processed_paths ([a] ++ l)).
    rewrite !processed_paths_app, IH by done.
    symmetry. apply Permutation_middle.
Qed.

Lemma finished_processed_paths st :
  finished st = true → processed_paths (tasks st) = t_command_path <$> tasks st.
Proof.
  unfold finished, processed_paths. generalize (tasks st). intros ts.
  induction ts as [|a ts IH]; [done|]. cbn.
  intros [Ha Hts]%andb_true_iff. rewrite Ha. cbn. by rewrite IH.
Qed.

Lemma step_accounted st ev st' :
  step st ev = Some st' →
  follows world st [ev] = true →
  accounted world st → accounted world st'.
Proof.
  intros Hstep Hfollows [Hpaths Hentries].
  destruct (step_paths _ _ _ Hstep) as [new Hnew].
  destruct (step_inv _ _ _ Hstep) as
    [_ [(j & q & v & -> & Hj & _ & ->)|(j & r & q & -> & Hj & ->)]];
    unfold accounted; cbn [tasks entries] in *.
  - rewrite processed_paths_start by done. split; [|done].
    rewrite list_fmap_insert. cbn.
    rewrite list_insert_id by (by rewrite list_lookup_fmap, Hj). done.
  - cbn [follows] in Hfollows. rewrite Hj in Hfollows.
    cbn [t_command_path] in Hfollows.
    apply andb_true_iff in Hfollows as [Hr%bool_decide_eq_true _].
    rewrite processed_paths_app, processed_paths_new, app_nil_r.
    rewrite (processed_paths_finish _ _ _ Hj). cbn [flat_map].
    unfold world_sub_paths at 1. unfold world_entries at 1. rewrite <- Hr.
    split.
    + rewrite fmap_app, list_fmap_insert. cbn.
      rewrite list_insert_id by (by rewrite list_lookup_fmap, Hj).
      rewrite Hpaths. rewrite <- list_fmap_compose.
      replace ((t_command_path ∘ (λ q0, Task q0 AwaitingPermit)) <$>
                 node_sub_paths q (get_help_output r))
        with (node_sub_paths q (get_help_output r)).
      * cbn. constructor. apply Permutation_app_comm.
      * clear. induction (node_sub_paths q (get_help_output r)); [done|].
        cbn. by f_equal.
    + unfold node_entries. cbn [fst snd]. rewrite Hentries.
      apply Permutation_app_comm.
Qed.

Lemma run_accounted evs : ∀ st st',
  run st evs = Some st' →
  follows world st evs = true →
  accounted world st → accounted world st'.
Proof.
  induction evs as [|ev evs IH]; intros st st'; cbn [run follows].
  - by intros [= <-].
  - destruct (step st ev) as [st1|] eqn:Hstep; [|done]. cbn [mbind option_bind].
    intros Hrun [Hev Hrest]%andb_true_iff Hacc.
    eapply IH; [exact Hrun | exact Hrest |].
    eapply step_accounted; [exact Hstep | | exact Hacc].
    cbn [follows]. rewrite Hev, Hstep. done.
Qed.

Lemma main_state_accounted : accounted world main_state.
Proof. split; done. Qed.

End schedule_facts.

(** X14.  When the help output of the external program depends on the
    command path only, two runs from [main] that both come to their end
    walk the same command paths and leave the same entries in [entries],
    each the same number of times: only the order can differ with the
    schedule. *)
Theorem catalog_is_schedule_independent
    (world : list string → invocation) evs1 evs2 st1 st2 :
  run main_state evs1 = Some st1 → follows world main_state evs1 = true →
  finished st1 = true →
  run main_state evs2 = Some st2 → follows world main_state evs2 = true →
  finished st2 = true →
  entries st1 ≡ₚ entries st2 ∧
  t_command_path <$> tasks st1 ≡ₚ t_command_path <$> tasks st2.
Proof.
  intros Hrun1 Hw1 Hfin1 Hrun2 Hw2 Hfin2.
  destruct (run_accounted world _ _ _ Hrun1 Hw1 (main_state_accounted world))
    as [Hpaths1 Hentries1].
  destruct (run_accounted world _ _ _ Hrun2 Hw2 (main_state_accounted world))
    as [Hpaths2 Hentries2].
  rewrite (finished_processed_paths _ Hfin1) in Hpaths1, Hentries1.
  rewrite (finished_processed_paths _ Hfin2) in Hpaths2, Hentries2.
  assert (t_command_path <$> tasks st1 ≡ₚ t_command_path <$> tasks st2) as Hsame.
  { apply (closed_lists_agree (world_sub_paths world)); [|done..].
    intros p. unfold world_sub_paths.
    eapply Forall_impl; [apply node_sub_paths_extend|].
    intros q (tok & -> & _). eauto. }
  split; [|done].
  rewrite Hentries1, Hentries2.
  by apply Permutation_flat_map.
Qed.

Lemma catalog_is_schedule_independent_witness :
  ∃ st1 st2,
    run main_state
      [Acquire 0; Return 0 (Decoded root_help); Acquire 1;
       Return 1 (Decoded leaf_help); Acquire 2; Return 2 (Decoded leaf_help)] =
      Some st1 ∧
    run main_state
      [Acquire 0; Return 0 (Decoded root_help); Acquire 2; Acquire 1;
       Return 2 (Decoded leaf_help); Return 1 (Decoded leaf_help)] = Some st2 ∧
    e_command <$> entries st1 =
      ["verdi -v / --verbose"; "verdi a -n / --dry-run"; "verdi a";
       "verdi b -n / --dry-run"; "verdi b"] ∧
    e_command <$> entries st2 =
      ["verdi -v / --verbose"; "verdi b -n / --dry-run"; "verdi b";
       "verdi a -n / --dry-run"; "verdi a"] ∧
    entries st1 ≡ₚ entries st2.
Proof.
  destruct (run main_state
              [Acquire 0; Return 0 (Decoded root_help); Acquire 1;
               Return 1 (Decoded leaf_help); Acquire 2;
               Return 2 (Decoded leaf_help)])
    as [st1|] eqn:Hrun1; [|vm_compute in Hrun1; discriminate Hrun1].
  destruct (run main_state
              [Acquire 0; Return 0 (Decoded root_help); Acquire 2; Acquire 1;
               Return 2 (Decoded leaf_help); Return 1 (Decoded leaf_help)])
    as [st2|] eqn:Hrun2; [|vm_compute in Hrun2; discriminate Hrun2].
  exists st1, st2. split; [reflexivity|]. split; [reflexivity|].
  assert (e_command <$> entries st1 =
          ["verdi -v / --verbose"; "verdi a -n / --dry-run"; "verdi a";
           "verdi b -n / --dry-run"; "verdi b"]) as Hc1.
  { pose proof Hrun1 as H. vm_compute in H. injection H as <-. reflexivity. }
  assert (e_command <$> entries st2 =
          ["verdi -v / --verbose"; "verdi b -n / --dry-run"; "verdi b";
           "verdi a -n / --dry-run"; "verdi a"]) as Hc2.
  { pose proof Hrun2 as H. vm_compute in H. injection H as <-. reflexivity. }
  split; [exact Hc1|]. split; [exact Hc2|].
  refine (proj1 (catalog_is_schedule_independent small_world _ _ _ _
                   Hrun1 _ _ Hrun2 _ _)).
  - pose proof Hrun1 as H. vm_compute in H. injection H as <-.
    vm_compute. reflexivity.
  - pose proof Hrun1 as H. vm_compute in H. injection H as <-. reflexivity.
  - pose proof Hrun2 as H. vm_compute in H. injection H as <-.
    vm_compute. reflexivity.
  - pose proof Hrun2 as H. vm_compute in H. injection H as <-. reflexivity.
Defined.

(** ** The walk of a finite command tree ends *)

Section termination_facts.

Variable world : list string → invocation.
Variable size : list string → nat.
Hypothesis size_counts : counts_nodes world size.

Lemma size_positive p : (0 < size p)%nat.
Proof. rewrite size_counts. lia. Qed.

Lemma remaining_insert ts : ∀ i t t',
  ts !! i = Some t →
  (sum_list_with (task_cost size) (<[i := t']> ts) + task_cost size t =
   sum_list_with (task_cost size) ts + task_cost size t')%nat.
Proof.
  induction ts as [|a ts IH]; intros [|i] t t'; try done.
  - intros [= ->]. cbn. lia.
  - intros Hi. specialize (IH _ _ t' Hi).
    change (sum_list_with (task_cost size) (<[S i := t']> (a :: ts)))
      with (task_cost size a + sum_list_with (task_cost size) (<[i := t']> ts))%nat.
    change (sum_list_with (task_cost size) (a :: ts))
      with (task_cost size a + sum_list_with (task_cost size) ts)%nat.
    lia.
Qed.

Lemma remaining_new (sub_paths : list (list string)) :
  sum_list_with (task_cost size) ((λ q, Task q AwaitingPermit) <$> sub_paths) =
  (2 * sum_list_with size sub_paths)%nat.
Proof.
  induction sub_paths as [|q sub_paths IH]; [done|].
  cbn [fmap list_fmap sum_list_with]. rewrite IH.
  unfold task_cost. cbn [t_phase t_command_path]. lia.
Qed.

Lemma step_remaining st ev st' :
  step st ev = Some st' →
  follows world st [ev] = true →
  remaining size st = S (remaining size st').
Proof.
  intros Hstep Hfollows. unfold remaining.
  destruct (step_inv _ _ _ Hstep) as
    [_ [(j & q & v & -> & Hj & _ & ->)|(j & r & q & -> & Hj & ->)]];
    cbn [tasks].
  - pose proof (remaining_insert _ _ _ (Task q InFlight) Hj) as H.
    pose proof (size_positive q).
    unfold task_cost at 2 4 in H. cbn [t_phase t_command_path] in H. lia.
  - cbn [follows] in Hfollows. rewrite Hj in Hfollows.
    cbn [t_command_path] in Hfollows.
    apply andb_true_iff in Hfollows as [Hr%bool_decide_eq_true _].
    pose proof (remaining_insert _ _ _ (Task q Processed) Hj) as H.
    unfold task_cost at 2 4 in H. cbn [t_phase t_command_path] in H.
    rewrite sum_list_with_app, remaining_new.
    pose proof (size_counts q) as Hq. unfold world_sub_paths in Hq.
    rewrite <- Hr in Hq. lia.
Qed.

Lemma run_remaining evs : ∀ st st',
  run st evs = Some st' →
  follows world st evs = true →
  remaining size st = (List.length evs + remaining size st')%nat.
Proof.
  induction evs as [|ev evs IH]; intros st st'; cbn [run follows].
  - by intros [= <-].
  - destruct (step st ev) as [st1|] eqn:Hstep; [|done]. cbn [mbind option_bind].
    intros Hrun [Hev Hrest]%andb_true_iff.
    rewrite (step_remaining _ _ _ Hstep), (IH _ _ Hrun Hrest); [cbn; lia|].
    cbn [follows]. by rewrite Hev, Hstep.
Qed.

Lemma finished_remaining st : finished st = true ↔ remaining size st = 0%nat.
Proof.
  unfold finished, remaining. generalize (tasks st). intros ts.
  induction ts as [|[p ph] ts IH]; [done|].
  change (sum_list_with (task_cost size) (Task p ph :: ts))
    with (task_cost size (Task p ph) + sum_list_with (task_cost size) ts)%nat.
  cbn [forallb t_phase]. rewrite andb_true_iff, IH.
  unfold task_cost. cbn [t_phase t_command_path].
  pose proof (size_positive p). destruct ph.
  - split; [by intros [? _] | lia].
  - split; [by intros [? _] | lia].
  - split; [by intros [_ ->] | intros ?; split; [done | lia]].
Qed.

(** From a state in which nothing has gone wrong the run can be brought to
    its end in as many events as remain. *)
Lemma run_can_end n : ∀ st,
  remaining size st = n →
  aborted st = false →
  permits_accounted st →
  ∃ evs st', run st evs = Some st' ∧ follows world st evs = true ∧
             finished st' = true.
Proof.
  induction n as [|n IH]; intros st Hn Hab Hperm.
  - exists [], st. split; [done|]. split; [done|]. by apply finished_remaining.
  - assert (finished st = false) as Hfin.
    { destruct (finished st) eqn:Hf; [|done].
      apply finished_remaining in Hf. lia. }
    assert (∃ ev st1, step st ev = Some st1 ∧ follows world st [ev] = true)
      as (ev & st1 & Hstep & Hev).
    { destruct (in_flight_or_none (tasks st)) as [(i & p & Hi)|Hnone].
      - destruct (return_enabled st i p (world p) Hab Hi) as [st1 Hst1].
        exists (Return i (world p)), st1. split; [done|].
        cbn [follows]. rewrite Hi, Hst1. cbn. by rewrite bool_decide_eq_true_2.
      - destruct (waiting_task _ Hfin Hnone) as (i & p & Hi).
        unfold permits_accounted, in_flight in Hperm. rewrite Hnone in Hperm.
        cbn in Hperm.
        destruct (acquire_enabled st i p 9 Hab Hi) as [st1 Hst1];
          [unfold CONCURRENCY_LIMIT in Hperm; lia|].
        exists (Acquire i), st1. split; [done|].
        cbn [follows]. by rewrite Hst1. }
    pose proof (step_remaining _ _ _ Hstep Hev) as Hrem.
    destruct (IH st1) as (evs & st' & Hrun & Hfollows & Hend).
    + lia.
    + by eapply step_not_aborted.
    + by eapply step_permits_accounted.
    + exists (ev :: evs), st'. cbn [run follows]. rewrite Hstep.
      cbn [mbind option_bind]. split; [done|]. split; [|done].
      cbn [follows] in Hev. rewrite Hstep in Hev.
      apply andb_true_iff in Hev as [-> _]. done.
Qed.

End termination_facts.



(** ** Rows of a table are read back *)

Section row_facts.

Lemma string_app_nil_l b : "" +:+ b = b.
Proof. reflexivity. Qed.

Lemma lstrip_app_ws w s : whitespace_only w = true → lstrip (w +:+ s) = lstrip s.
Proof.
  induction w as [|c w IH]; [done|]. cbn [whitespace_only].
  intros [Hc Hw]%andb_true_iff. rewrite string_app_cons. cbn [lstrip].
  rewrite Hc. by apply IH.
Qed.

Lemma rstrip_whitespace_only w : whitespace_only w = true → rstrip w = "".
Proof.
  induction w as [|c w IH]; [done|]. cbn [whitespace_only rstrip].
  intros [Hc Hw]%andb_true_iff. by rewrite (IH Hw), Hc.
Qed.

Lemma rstrip_empty_inv s : rstrip s = "" → whitespace_only s = true.
Proof.
  induction s as [|c s IH]; [done|]. cbn [whitespace_only rstrip].
  destruct (rstrip s); [|done].
  destruct (isspace c); [|done]. intros _. by rewrite IH.
Qed.

Lemma rstrip_app_ws s w : whitespace_only w = true → rstrip (s +:+ w) = rstrip s.
Proof.
  intros Hw. induction s as [|c s IH].
  - by apply rstrip_whitespace_only.
  - rewrite string_app_cons. cbn [rstrip]. by rewrite IH.
Qed.

Lemma rstrip_app_text n y : rstrip y ≠ "" → rstrip (n +:+ y) = n +:+ rstrip y.
Proof.
  intros Hy. induction n as [|c n IH]; [done|].
  rewrite !string_app_cons. cbn [rstrip]. rewrite IH.
  destruct (n +:+ rstrip y) eqn:Hn; [|done].
  by apply string_app_nil_inv in Hn as [_ ?].
Qed.

Lemma whitespace_only_app a b :
  whitespace_only (a +:+ b) = whitespace_only a && whitespace_only b.
Proof.
  induction a as [|c a IH]; [done|].
  rewrite string_app_cons. cbn [whitespace_only]. by rewrite IH, andb_assoc.
Qed.

Lemma lstrip_idemp s : lstrip (lstrip s) = lstrip s.
Proof.
  induction s as [|c s IH]; [done|]. cbn [lstrip].
  destruct (isspace c) eqn:Hc; [done|]. cbn [lstrip]. by rewrite Hc.
Qed.

Lemma lstrip_rstrip s : lstrip (rstrip s) = rstrip (lstrip s).
Proof.
  induction s as [|c s IH]; [done|].
  destruct (isspace c) eqn:Hc.
  - cbn [lstrip rstrip]. rewrite Hc, <- IH.
    destruct (rstrip s) eqn:Hr; [done|]. cbn [lstrip]. by rewrite Hc.
  - cbn [lstrip]. rewrite Hc.
    destruct (rstrip_cons_nonspace c s Hc) as [r ->]. cbn [lstrip].
    by rewrite Hc.
Qed.

Lemma strip_lstrip_rstrip s : strip (lstrip (rstrip s)) = strip s.
Proof.
  unfold strip. by rewrite lstrip_idemp, lstrip_rstrip, rstrip_idemp.
Qed.

Lemma rstrip_tail c n : n ≠ "" → rstrip (String c n) = String c n → rstrip n = n.
Proof.
  intros Hn. cbn [rstrip]. destruct (rstrip n) eqn:Hr.
  - destruct (isspace c); [done|]. intros [= <-]. done.
  - by intros [= <-].
Qed.

(** Where the first run of whitespace is, after a well-formed first
    column. *)
Lemma re_search_ws2_key key gap x :
  key ≠ "" → rstrip key = key → re_search_ws2 key = None →
  whitespace_only gap = true → (2 ≤ String.length gap)%nat →
  re_search_ws2 (key +:+ gap +:+ x) = Some (key, lstrip x).
Proof.
  intros Hne Hr Hs Hgap Hlen.
  destruct gap as [|a [|b gap]]; [cbn in Hlen; lia | cbn in Hlen; lia |].
  cbn [whitespace_only] in Hgap.
  apply andb_true_iff in Hgap as [Ha [Hb Hgap]%andb_true_iff].
  induction key as [|c key IH]; [done|].
  destruct (re_search_ws2_tail _ _ Hs) as [Hrun Hs'].
  rewrite string_app_cons, re_search_ws2_cons.
  destruct key as [|d key].
  - assert (isspace c = false) as Hc.
    { cbn [rstrip] in Hr. by destruct (isspace c). }
    rewrite string_app_nil_l, !string_app_cons.
    replace (ws_run_here (String c (String a (String b (gap +:+ x))))) with false
      by (cbn; by rewrite Hc).
    rewrite re_search_ws2_cons.
    replace (ws_run_here (String a (String b (gap +:+ x)))) with true
      by (cbn; by rewrite Ha, Hb).
    cbn [lstrip]. rewrite Ha, Hb. by rewrite lstrip_app_ws.
  - rewrite string_app_cons.
    rewrite (ws_run_here_head c d _ key), Hrun.
    rewrite <- string_app_cons, IH; [done | done | | done].
    by eapply rstrip_tail.
Qed.

Lemma startswith_app_l key rest pre :
  startswith key pre = true → startswith (key +:+ rest) pre = true.
Proof.
  revert key. induction pre as [|a pre IH]; intros key; [done|].
  destruct key as [|c key]; [done|].
  rewrite string_app_cons, !startswith_cons.
  destruct (Ascii.eqb a c); [apply IH | done].
Qed.

(** A prefix without whitespace that the first column does not start with
    is no prefix of the row either: after the column whitespace follows. *)
Lemma startswith_app_ws key w rest pre :
  startswith key pre = false →
  has_no_space pre = true →
  w ≠ "" → whitespace_only w = true →
  startswith (key +:+ w +:+ rest) pre = false.
Proof.
  intros Hkey Hpre Hw Hws. revert key Hkey Hpre.
  induction pre as [|a pre IH]; intros key Hkey Hpre; [done|].
  cbn [has_no_space] in Hpre. apply andb_true_iff in Hpre as [Ha Hpre].
  destruct key as [|c key].
  - destruct w as [|b w]; [done|]. cbn [whitespace_only] in Hws.
    apply andb_true_iff in Hws as [Hb _].
    rewrite string_app_nil_l, string_app_cons, startswith_cons.
    destruct (Ascii.eqb a b) eqn:E; [|done].
    apply Ascii.eqb_eq in E. subst. by rewrite Hb in Ha.
  - rewrite string_app_cons, startswith_cons. rewrite startswith_cons in Hkey.
    destruct (Ascii.eqb a c); [|done]. by apply IH.
Qed.

End row_facts.

Section row_parsing.

Lemma key_ok_stripped key : key_ok key → lstrip key = key ∧ rstrip key = key.
Proof. intros (_ & Hs & _). rewrite <- Hs. apply strip_stripped. Qed.

Lemma gap_wide r :
  row_ok r → whitespace_only (r_text r) = false →
  (2 ≤ String.length (r_gap r))%nat.
Proof. intros (_ & _ & _ & _ & [Htext|Hlen]) Hne; [congruence | done]. Qed.

Lemma gap_nonempty r :
  row_ok r → whitespace_only (r_text r) = false → r_gap r ≠ "".
Proof.
  intros Hrow Hne. pose proof (gap_wide r Hrow Hne) as Hlen.
  destruct (r_gap r); [cbn in Hlen; lia | done].
Qed.

Lemma strip_render_row r :
  row_ok r →
  strip (render_row r) =
  if whitespace_only (r_text r) then r_key r
  else r_key r +:+ r_gap r +:+ rstrip (r_text r).
Proof.
  intros Hrow.
  destruct Hrow as (_ & Hindent & Hkey & Hgap & _).
  destruct (key_ok_stripped _ Hkey) as [Hl Hr]. destruct Hkey as (Hne & _ & _).
  unfold strip, render_row.
  rewrite (lstrip_app_ws _ _ Hindent), (lstrip_app_l _ _ Hne Hl).
  destruct (whitespace_only (r_text r)) eqn:Htext.
  - rewrite rstrip_app_ws; [done|]. by rewrite whitespace_only_app, Hgap, Htext.
  - assert (rstrip (r_text r) ≠ "") as Hrt.
    { intros H. apply rstrip_empty_inv in H. congruence. }
    rewrite rstrip_app_text; rewrite rstrip_app_text; try done.
    by intros [_ ?]%string_app_nil_inv.
Qed.

Lemma row_split r :
  row_ok r →
  ∃ part0 parts,
    re_split_ws2 (strip (render_row r)) = part0 :: parts ∧
    strip part0 = r_key r ∧
    match parts !! 0%nat with
    | Some part1 => strip part1
    | None => ""
    end = strip (r_text r).
Proof.
  intros Hrow. rewrite (strip_render_row r Hrow).
  pose proof Hrow as (_ & _ & Hkey & Hgap & _).
  destruct (key_ok_stripped _ Hkey) as [_ Hr].
  destruct Hkey as (Hne & Hs & Hsearch).
  unfold re_split_ws2. destruct (whitespace_only (r_text r)) eqn:Htext.
  - rewrite Hsearch. exists (r_key r), []. split; [done|]. split; [done|].
    cbn. by rewrite strip_whitespace_only.
  - rewrite (re_search_ws2_key _ _ _ Hne Hr Hsearch Hgap (gap_wide r Hrow Htext)).
    exists (r_key r), [lstrip (rstrip (r_text r))].
    split; [done|]. split; [done|]. cbn. apply strip_lstrip_rstrip.
Qed.

Lemma row_startswith_false r pre :
  row_ok r → startswith (r_key r) pre = false → has_no_space pre = true →
  startswith (strip (render_row r)) pre = false.
Proof.
  intros Hrow Hkey Hpre. rewrite (strip_render_row r Hrow).
  destruct (whitespace_only (r_text r)) eqn:Htext; [done|].
  apply startswith_app_ws; [done | done | by apply gap_nonempty |].
  by destruct Hrow as (_ & _ & _ & ? & _).
Qed.

Lemma row_startswith_true r pre :
  row_ok r → startswith (r_key r) pre = true →
  startswith (strip (render_row r)) pre = true.
Proof.
  intros Hrow Hkey. rewrite (strip_render_row r Hrow).
  destruct (whitespace_only (r_text r)); [done|]. by apply startswith_app_l.
Qed.

Lemma row_indented r : row_ok r → startswith (render_row r) " " = true.
Proof. intros (Hindent & _). by apply startswith_app_l. Qed.

Lemma row_nonempty r : row_ok r → nonempty (strip (render_row r)) = true.
Proof.
  intros Hrow. rewrite (strip_render_row r Hrow).
  destruct Hrow as (_ & _ & (Hne & _ & _) & _).
  destruct (r_key r) as [|c key]; [done|].
  destruct (whitespace_only (r_text r)); [done|]. by rewrite string_app_cons.
Qed.

Lemma dash_not_startswith key a pre :
  startswith key "-" = true → Ascii.eqb a "-" = false →
  startswith key (String a pre) = false.
Proof.
  intros [t ->]%startswith_dash_inv Ha. rewrite startswith_cons. by rewrite Ha.
Qed.

Lemma parse_options_loop_rows rows : ∀ options current_option,
  Forall (λ r, row_ok r ∧ startswith (r_key r) "-" = true) rows →
  po_options <$>
    parse_options_loop (render_row <$> rows) options true current_option =
  Some (options ++
        ((λ r, {| o_flags := r_key r; o_description := strip (r_text r) |})
           <$> rows)).
Proof.
  induction rows as [|r rows IH]; intros options current_option Hall.
  - cbn. by rewrite app_nil_r.
  - apply Forall_cons_1 in Hall as [[Hrow Hdash] Hall].
    cbn [fmap list_fmap parse_options_loop].
    rewrite (row_startswith_false r "Options:" Hrow)
      by (by apply dash_not_startswith || done).
    unfold options_break.
    rewrite (row_startswith_false r "Commands:" Hrow)
      by (by apply dash_not_startswith || done).
    rewrite (row_startswith_false r "Arguments:" Hrow)
      by (by apply dash_not_startswith || done).
    rewrite (row_indented r Hrow), (row_nonempty r Hrow).
    rewrite (row_startswith_true r "-" Hrow Hdash). cbn [orb andb negb].
    destruct (row_split r Hrow) as (part0 & parts & -> & Hkey & Htext).
    change ((part0 :: parts) !! 0%nat) with (Some part0).
    change ((part0 :: parts) !! 1%nat) with (parts !! 0%nat).
    cbn [mbind option_bind]. rewrite Hkey, Htext.
    rewrite (IH _ _ Hall). by rewrite <- app_assoc.
Qed.

Lemma parse_sub_commands_loop_rows rows : ∀ sub_commands,
  Forall (λ r, row_ok r ∧
               startswith (r_key r) "Commands:" = false ∧
               startswith (r_key r) "Options:" = false ∧
               startswith (r_key r) "Arguments:" = false) rows →
  parse_sub_commands_loop (render_row <$> rows) sub_commands true =
  sub_commands ++ (r_key <$> rows).
Proof.
  induction rows as [|r rows IH]; intros sub_commands Hall.
  - cbn. by rewrite app_nil_r.
  - apply Forall_cons_1 in Hall as [(Hrow & Hc & Ho & Ha) Hall].
    cbn [fmap list_fmap parse_sub_commands_loop].
    rewrite (row_startswith_false r "Commands:" Hrow) by done.
    unfold commands_break.
    rewrite (row_startswith_false r "Options:" Hrow) by done.
    rewrite (row_startswith_false r "Arguments:" Hrow) by done.
    rewrite (row_indented r Hrow), (row_nonempty r Hrow). cbn [orb andb negb].
    destruct (row_split r Hrow) as (part0 & parts & -> & Hkey & _).
    rewrite Hkey, (IH _ Hall). by rewrite <- app_assoc.
Qed.

End row_parsing.

(** X16.  A table of options is read back: after a header line, for rows
    that are indented by spaces, whose first column starts with "-", is
    trimmed and holds no run of two or more whitespace characters, and
    whose columns are at least two whitespace characters apart,
    [parse_options] returns one option for each row, in order, with the
    first column as its flags and the trimmed second column as its
    description (empty when the row has no second column). *)
Theorem option_rows_are_read_back header rows :
  startswith (strip header) "Options:" = true →
  Forall (λ r, row_ok r ∧ startswith (r_key r) "-" = true) rows →
  parse_options (header :: (render_row <$> rows)) =
  Some ((λ r, {| o_flags := r_key r; o_description := strip (r_text r) |})
          <$> rows).
Proof.
  intros Hheader Hall. unfold parse_options. cbn [parse_options_loop].
  rewrite Hheader. by rewrite (parse_options_loop_rows rows [] None Hall).
Qed.

Lemma option_rows_are_read_back_witness :
  parse_options ["Options:"; "  -v, --verbose  Be verbose. "; " --all"] =
    Some [ {| o_flags := "-v, --verbose"; o_description := "Be verbose." |};
           {| o_flags := "--all"; o_description := "" |} ].
Proof.
  apply (option_rows_are_read_back "Options:"
           [TableRow "  " "-v, --verbose" "  " "Be verbose. ";
            TableRow " " "--all" "" ""]); [reflexivity|].
  repeat constructor; try discriminate; first [by left | right; cbn; lia].
Defined.

(** X17.  A table of sub-commands is read back: after a header line, for
    rows that are indented by spaces, whose first column is not empty, is
    trimmed, holds no run of two or more whitespace characters and starts
    with none of "Commands:", "Options:" and "Arguments:", and whose
    columns, when there is a second one, are at least two whitespace
    characters apart, [parse_sub_commands] returns the first column of each row, in order. *)
Theorem command_rows_are_read_back header rows :
  startswith (strip header) "Commands:" = true →
  Forall (λ r, row_ok r ∧
               startswith (r_key r) "Commands:" = false ∧
               startswith (r_key r) "Options:" = false ∧
               startswith (r_key r) "Arguments:" = false) rows →
  parse_sub_commands (header :: (render_row <$> rows)) = r_key <$> rows.
Proof.
  intros Hheader Hall. unfold parse_sub_commands.
  cbn [parse_sub_commands_loop]. rewrite Hheader.
  by rewrite (parse_sub_commands_loop_rows rows [] Hall).
Qed.

Lemma command_rows_are_read_back_witness :
  parse_sub_commands ["Commands:"; "  foo  Does foo."; "  bar baz   Does bar."] =
    ["foo"; "bar baz"].
Proof.
  apply (command_rows_are_read_back "Commands:"
           [TableRow "  " "foo" "  " "Does foo.";
            TableRow "  " "bar baz" "   " "Does bar."]); [reflexivity|].
  repeat constructor; try discriminate; right; cbn; lia.
Defined.

Section entry_description_facts.

Lemma lstrip_app_text d x :
  whitespace_only d = false → lstrip (d +:+ x) = lstrip d +:+ x.
Proof.
  induction d as [|c d IH]; [done|]. cbn [whitespace_only].
  rewrite string_app_cons. cbn [lstrip].
  destruct (isspace c); [apply IH | by rewrite string_app_cons].
Qed.

Lemma strip_app_ws d w : whitespace_only w = true → strip (d +:+ w) = strip d.
Proof.
  intros Hw. unfold strip. destruct (whitespace_only d) eqn:Hd.
  - rewrite lstrip_whitespace_only, (lstrip_whitespace_only d) by
      (done || by rewrite whitespace_only_app, Hd, Hw). done.
  - rewrite lstrip_app_text by done. by apply rstrip_app_ws.
Qed.

Lemma strip_ws_app w x : whitespace_only w = true → strip (w +:+ x) = strip x.
Proof. intros Hw. unfold strip. by rewrite lstrip_app_ws. Qed.

End entry_description_facts.

(** X18.  The separator between the description of the command and that of
    the option leaves no trace when one of the two is missing: the entry of
    an option without a description of its own gets the trimmed
    description of the command, and under a command without a description
    the entry gets the trimmed description of the option. *)
Theorem entry_description_without_one_part
    command_path usage description o entries :
  "-h" ∉ flag_variants o →
  let command :=
    "verdi " +:+ join " " (command_path ++ [join " / " (flag_variants o)]) in
  (o_description o = "" →
   process_options command_path usage description [o] entries =
   entries ++ [ {| e_command := command; e_usage := usage;
                   e_description := strip description |} ]) ∧
  (description = "" →
   process_options command_path usage description [o] entries =
   entries ++ [ {| e_command := command; e_usage := usage;
                   e_description := strip (o_description o) |} ]).
Proof.
  intros Hh command. cbn [process_options].
  rewrite bool_decide_eq_false_2 by done. split.
  - intros ->. by rewrite (strip_app_ws description (" " +:+ "")).
  - intros ->. by rewrite string_app_nil_l, (strip_ws_app " " (o_description o)).
Qed.

Lemma entry_description_without_one_part_witness :
  process_options ["node"] "u" "Does a thing."
    [ {| o_flags := "--all"; o_description := "" |} ] [] =
  [ {| e_command := "verdi node --all";
       e_usage := "u";
       e_description := "Does a thing." |} ].
Proof.
  destruct (entry_description_without_one_part ["node"] "u" "Does a thing."
              {| o_flags := "--all"; o_description := "" |} [])
    as [Hdesc _].
  - vm_compute. intros H. apply list_elem_of_In in H.
    destruct H as [H|[]]. discriminate H.
  - rewrite Hdesc by reflexivity. reflexivity.
Defined.
